(** * The application initialization sequence of frontend-platform

    A shallow embedding of [src/initialize.js]: the default handlers
    [initError], [auth] and [analytics], the handler table built by
    [applyOverrideHandlers], and the sequencer [initialize].

    How the JavaScript is read:
    - values thrown, passed and returned are terms of [value]; a promise is
      represented by its settlement ([VPromise]), so [await] is a function of
      the awaited value, and an [async] function never throws to its caller
      but returns a promise carrying the completion of its body. A promise
      that never settles has no representation: every handler and every
      import returns;
    - a statement is a function from a [state] to a new state and a
      [completion] (normal, or thrown value); effects made before a throw
      are kept;
    - the imported modules (config, logging, auth, analytics, i18n) are
      parameters. The accessors [getConfig], [getLoggingService],
      [getAuthenticatedHttpClient], [getAuthenticatedUser] and the global
      [location] read the collaborators' state [St] and do not throw; the
      other imports are arbitrary functions on [St] that may throw
      ([extern]), and so are the handlers that the caller supplies;
    - every call that initialize.js makes to such an import is appended to
      [calls]; every [publish] is appended to [trace] (the bus only records),
      together with two markers per awaited handler and per wiring block
      ([Start], [Done]) that record when it was entered and how it
      completed. What the caller's handlers do on their own (publishing,
      calling the services) is part of their effect on [St], not of these
      logs. The markers are annotations, so statements about a handler
      being called, or not, are made on the calls themselves: [replay]
      relates a trace to the runs of the code that it stands for, and
      [initialize_replay] proves that the trace of a run replays to its
      final state. *)

From Stdlib Require Import String List ZArith Bool Arith Lia Sorted.
Import ListNotations.
Open Scope string_scope.
Open Scope list_scope.
Set Warnings "-register-all".

(** ** JavaScript values *)

Inductive value : Type :=
| VUndefined
| VNull
| VBool (b : bool)
| VNum (n : Z)
| VStr (s : string)
| VObj (props : list (string * value))
| VPromise (fulfilled : bool) (v : value).

Inductive completion (A : Type) : Type :=
| Normal (a : A)
| Throw (v : value).
Arguments Normal {A} a.
Arguments Throw {A} v.

(** ToBoolean. *)
Definition truthy (v : value) : bool :=
  match v with
  | VUndefined | VNull => false
  | VBool b => b
  | VNum n => negb (n =? 0)%Z
  | VStr s => negb (String.eqb s EmptyString)
  | VObj _ | VPromise _ _ => true
  end.

(** [v === null]. *)
Definition is_null (v : value) : bool :=
  match v with VNull => true | _ => false end.

Fixpoint lookup (k : string) (props : list (string * value)) : value :=
  match props with
  | [] => VUndefined
  | (k', v) :: rest => if String.eqb k k' then v else lookup k rest
  end.

Definition TypeError (message : string) : value :=
  VObj [("name", VStr "TypeError"); ("message", VStr message)].

(** The property read [v.k]: a TypeError on [undefined] and [null], the own
    property of an object, [undefined] when it is absent. *)
Definition get (v : value) (k : string) : completion value :=
  match v with
  | VUndefined | VNull => Throw (TypeError (String.append "Cannot read properties of undefined or null: " k))
  | VObj props => Normal (lookup k props)
  | _ => Normal VUndefined
  end.

(** The settlement of a promise as the completion of an [await]. *)
Definition settle (r : value) : completion value :=
  match r with
  | VPromise true v => Normal v
  | VPromise false v => Throw v
  | _ => Normal r
  end.

(** The promise an async function returns for a completion of its body. *)
Definition promise_of {A} (c : completion A) : value :=
  match c with
  | Normal _ => VPromise true VUndefined
  | Throw v => VPromise false v
  end.

Definition arg (n : nat) (args : list value) : value := nth n args VUndefined.

(** A destructuring default: used when the property is [undefined]. *)
Definition default_to (d v : value) : value :=
  match v with VUndefined => d | _ => v end.

(** ** Phases, topics and observations *)

Inductive phase : Type :=
| PubSub | Config | Logging | Auth | Analytics | I18n | Ready.

Definition phases : list phase :=
  [PubSub; Config; Logging; Auth; Analytics; I18n; Ready].

Definition APP_TOPIC := "APP".
Definition APP_PUBSUB_INITIALIZED := String.append APP_TOPIC ".PUBSUB_INITIALIZED".
Definition APP_CONFIG_INITIALIZED := String.append APP_TOPIC ".CONFIG_INITIALIZED".
Definition APP_AUTH_INITIALIZED := String.append APP_TOPIC ".AUTH_INITIALIZED".
Definition APP_I18N_INITIALIZED := String.append APP_TOPIC ".I18N_INITIALIZED".
Definition APP_LOGGING_INITIALIZED := String.append APP_TOPIC ".LOGGING_INITIALIZED".
Definition APP_ANALYTICS_INITIALIZED := String.append APP_TOPIC ".ANALYTICS_INITIALIZED".
Definition APP_READY := String.append APP_TOPIC ".READY".
Definition APP_INIT_ERROR := String.append APP_TOPIC ".INIT_ERROR".

(** The topic that [initialize] publishes once the handler of a phase has
    resolved. *)
Definition topic (p : phase) : string :=
  match p with
  | PubSub => APP_PUBSUB_INITIALIZED
  | Config => APP_CONFIG_INITIALIZED
  | Logging => APP_LOGGING_INITIALIZED
  | Auth => APP_AUTH_INITIALIZED
  | Analytics => APP_ANALYTICS_INITIALIZED
  | I18n => APP_I18N_INITIALIZED
  | Ready => APP_READY
  end.

(** The places of [initialize] where a value can be thrown: the wiring block
    before a handler, the awaited handler of a phase, and the awaited
    [initError] handler of the catch clause. *)
Inductive site : Type :=
| Wiring (p : phase)
| Handler (p : phase)
| ErrorHandler.

Inductive event : Type :=
| Start (at_ : site) (args : list value)
| Done (at_ : site) (c : completion value)
| Publish (topic : string) (payload : option value).

(** The imported functions that initialize.js calls for their effect. *)
Inductive fn : Type :=
| ConfigureLogging | ConfigureAuth | ConfigureAnalytics | ConfigureI18n
| EnsureAuthenticatedUser | FetchAuthenticatedUser | HydrateAuthenticatedUser
| IdentifyAuthenticatedUser | IdentifyAnonymousUser
| LogError.

Definition call_record : Type := fn * list value.

Section Initialization.

Variable St : Type.

(** ** The collaborators *)

Record collaborators : Type := {
  config_of : St -> value;                 (* getConfig() *)
  logging_service_of : St -> value;        (* getLoggingService() *)
  http_client_of : St -> value;            (* getAuthenticatedHttpClient() *)
  authenticated_user_of : St -> value;     (* getAuthenticatedUser() *)
  location_of : St -> value;               (* global.location *)
  NewRelicLoggingService : value;
  SegmentAnalyticsService : value;
  extern : fn -> list value -> St -> St * completion value
}.

Record state : Type := {
  ext : St;
  calls : list call_record;
  trace : list event
}.

Definition start (sigma : St) : state :=
  {| ext := sigma; calls := []; trace := [] |}.

(** ** Statements *)

Definition M (A : Type) : Type := state -> state * completion A.

Definition ret {A} (a : A) : M A := fun s => (s, Normal a).

Definition throw {A} (v : value) : M A := fun s => (s, Throw v).

Definition bind {A B} (m : M A) (k : A -> M B) : M B :=
  fun s =>
    match m s with
    | (s', Normal a) => k a s'
    | (s', Throw v) => (s', Throw v)
    end.

Definition try_catch {A} (body : M A) (handler : value -> M A) : M A :=
  fun s =>
    match body s with
    | (s', Normal a) => (s', Normal a)
    | (s', Throw v) => handler v s'
    end.

Definition lift_completion {A} (c : completion A) : M A := fun s => (s, c).

Notation "x <- m ;; k" := (bind m (fun x => k))
  (at level 61, m at next level, right associativity).
Notation "m ;; k" := (bind m (fun _ => k))
  (at level 61, right associativity).

Definition prop (v : value) (k : string) : M value := lift_completion (get v k).

Definition await (m : M value) : M value :=
  r <- m ;; lift_completion (settle r).

Definition async (body : M unit) : M value :=
  fun s => let (s', c) := body s in (s', Normal (promise_of c)).

Definition emit (e : event) : M unit :=
  fun s => ({| ext := ext s; calls := calls s; trace := trace s ++ [e] |}, Normal tt).

(** Marks the entry of a site and the completion of the code at it. *)
Definition step (at_ : site) (args : list value) (m : M value) : M value :=
  fun s =>
    let (s0, _) := emit (Start at_ args) s in
    let (s1, c) := m s0 in
    (fst (emit (Done at_ c) s1), c).

(** [publish(topic)] and [publish(topic, payload)] of the pubSub module. *)
Definition publish (t : string) (payload : option value) : M unit :=
  emit (Publish t payload).

Variable K : collaborators.

Definition call (f : fn) (args : list value) : M value :=
  fun s =>
    let (sigma, c) := extern K f args (ext s) in
    ({| ext := sigma; calls := calls s ++ [(f, args)]; trace := trace s |}, c).

Definition read (f : St -> value) : M value := fun s => (s, Normal (f (ext s))).

Definition getConfig : M value := read (config_of K).
Definition getLoggingService : M value := read (logging_service_of K).
Definition getAuthenticatedHttpClient : M value := read (http_client_of K).
Definition getAuthenticatedUser : M value := read (authenticated_user_of K).
Definition global_location : M value := read (location_of K).

Definition configureLogging (service options : value) := call ConfigureLogging [service; options].
Definition configureAuth (options : value) := call ConfigureAuth [options].
Definition configureAnalytics (service options : value) := call ConfigureAnalytics [service; options].
Definition configureI18n (options : value) := call ConfigureI18n [options].
Definition ensureAuthenticatedUser (redirectUrl : value) := call EnsureAuthenticatedUser [redirectUrl].
Definition fetchAuthenticatedUser := call FetchAuthenticatedUser [].
Definition hydrateAuthenticatedUser := call HydrateAuthenticatedUser [].
Definition identifyAuthenticatedUser (userId : value) := call IdentifyAuthenticatedUser [userId].
Definition identifyAnonymousUser := call IdentifyAnonymousUser [].
Definition logError (error : value) := call LogError [error].

(** ** The default handlers *)

Definition callable : Type := list value -> M value.

(** [export async function initError(error)] (lines 43-45). *)
Definition initError : callable := fun args =>
  let error := arg 0 args in
  async (logError error ;; ret tt).

(** [export async function auth(requireUser, hydrateUser)] (lines 61-74).
    The call [hydrateAuthenticatedUser()] is a statement of its own: the
    promise it returns is dropped. *)
Definition auth : callable := fun args =>
  let requireUser := arg 0 args in
  let hydrateUser := arg 1 args in
  async (
    (if truthy requireUser then
       location <- global_location ;;
       href <- prop location "href" ;;
       await (ensureAuthenticatedUser href)
     else
       await fetchAuthenticatedUser) ;;
    cond <- (if truthy hydrateUser then
               user <- getAuthenticatedUser ;; ret (negb (is_null user))
             else ret false) ;;
    if cond then hydrateAuthenticatedUser ;; ret tt else ret tt).

(** [export async function analytics()] (lines 86-93). *)
Definition analytics : callable := fun _ =>
  async (
    authenticatedUser <- getAuthenticatedUser ;;
    cond <- (if truthy authenticatedUser then prop authenticatedUser "userId"
             else ret authenticatedUser) ;;
    if truthy cond then
      userId <- prop authenticatedUser "userId" ;;
      identifyAuthenticatedUser userId ;; ret tt
    else
      identifyAnonymousUser ;; ret tt).

(** ** Handler overrides *)

(** A property of the caller's [handlers] object: a function of the host
    application, which acts on the collaborators' state, or a value that is
    not a function. *)
Inductive member : Type :=
| Fn (f : list value -> St -> St * completion value)
| NotFn (v : value).

(** The call [handlers.key(args)] of an overriding property. *)
Definition invoke (m : member) : callable := fun args =>
  match m with
  | Fn f => fun s =>
      let (sigma, c) := f args (ext s) in
      ({| ext := sigma; calls := calls s; trace := trace s |}, c)
  | NotFn _ => throw (TypeError "handler is not a function")
  end.

(** The own properties of the [handlers] option; [None] is an absent key. *)
Record overrides : Type := {
  o_pubSub : option member;
  o_config : option member;
  o_logging : option member;
  o_auth : option member;
  o_analytics : option member;
  o_i18n : option member;
  o_ready : option member;
  o_initError : option member
}.

Definition no_overrides : overrides :=
  {| o_pubSub := None; o_config := None; o_logging := None; o_auth := None;
     o_analytics := None; o_i18n := None; o_ready := None; o_initError := None |}.

Record handlers : Type := {
  h_pubSub : callable;
  h_config : callable;
  h_logging : callable;
  h_auth : callable;
  h_analytics : callable;
  h_i18n : callable;
  h_ready : callable;
  h_initError : callable
}.

(** [const noOp = async () => {}] *)
Definition noOp : callable := fun _ => async (ret tt).

(** One key of the object literal [{ key: dflt, ...overrides }]. *)
Definition spread (dflt : callable) (o : option member) : callable :=
  match o with
  | None => dflt
  | Some m => invoke m
  end.

(** [function applyOverrideHandlers(overrides)] (lines 95-108). *)
Definition applyOverrideHandlers (ov : overrides) : handlers :=
  {| h_pubSub := spread noOp (o_pubSub ov);
     h_config := spread noOp (o_config ov);
     h_logging := spread noOp (o_logging ov);
     h_auth := spread auth (o_auth ov);
     h_analytics := spread analytics (o_analytics ov);
     h_i18n := spread noOp (o_i18n ov);
     h_ready := spread noOp (o_ready ov);
     h_initError := spread initError (o_initError ov) |}.

(** ** The sequencer *)

(** The properties of the options object; [VUndefined] and [None] stand for
    an absent (or undefined) property. *)
Record options : Type := {
  opt_loggingService : value;
  opt_analyticsService : value;
  opt_requireAuthenticatedUser : value;
  opt_hydrateAuthenticatedUser : value;
  opt_messages : value;
  opt_handlers : option overrides
}.

Definition empty_options : options :=
  {| opt_loggingService := VUndefined;
     opt_analyticsService := VUndefined;
     opt_requireAuthenticatedUser := VUndefined;
     opt_hydrateAuthenticatedUser := VUndefined;
     opt_messages := VUndefined;
     opt_handlers := None |}.

(** The bindings made by the parameter pattern of [initialize]. *)
Record params : Type := {
  loggingService : value;
  analyticsService : value;
  requireUser : value;
  hydrateUser : value;
  messages : value;
  overrideHandlers : overrides
}.

(** Destructuring of the argument by the parameter pattern (lines 134-141);
    [None] is a call without argument. *)
Definition destructure (argument : option options) : completion params :=
  match argument with
  | None => Throw (TypeError "Cannot destructure 'undefined' as it is undefined.")
  | Some o =>
      Normal
        {| loggingService := default_to (NewRelicLoggingService K) (opt_loggingService o);
           analyticsService := default_to (SegmentAnalyticsService K) (opt_analyticsService o);
           requireUser := default_to (VBool false) (opt_requireAuthenticatedUser o);
           hydrateUser := default_to (VBool false) (opt_hydrateAuthenticatedUser o);
           messages := opt_messages o;
           overrideHandlers :=
             match opt_handlers o with Some ov => ov | None => no_overrides end |}
  end.

(** The wiring blocks: the [configure...] calls of lines 153-155, 160-169,
    174-178 and 183-187, with their arguments evaluated left to right. *)
Definition wire_logging (p : params) : M value :=
  config <- getConfig ;;
  configureLogging (loggingService p) (VObj [("config", config)]).

Definition wire_auth : M value :=
  loggingService <- getLoggingService ;;
  appBaseUrl <- (c <- getConfig ;; prop c "BASE_URL") ;;
  lmsBaseUrl <- (c <- getConfig ;; prop c "LMS_BASE_URL") ;;
  loginUrl <- (c <- getConfig ;; prop c "LOGIN_URL") ;;
  logoutUrl <- (c <- getConfig ;; prop c "LOGIN_URL") ;;
  refreshAccessTokenEndpoint <- (c <- getConfig ;; prop c "REFRESH_ACCESS_TOKEN_ENDPOINT") ;;
  accessTokenCookieName <- (c <- getConfig ;; prop c "ACCESS_TOKEN_COOKIE_NAME") ;;
  csrfTokenApiPath <- (c <- getConfig ;; prop c "CSRF_TOKEN_API_PATH") ;;
  configureAuth
    (VObj [("loggingService", loggingService);
           ("appBaseUrl", appBaseUrl);
           ("lmsBaseUrl", lmsBaseUrl);
           ("loginUrl", loginUrl);
           ("logoutUrl", logoutUrl);
           ("refreshAccessTokenEndpoint", refreshAccessTokenEndpoint);
           ("accessTokenCookieName", accessTokenCookieName);
           ("csrfTokenApiPath", csrfTokenApiPath)]).

Definition wire_analytics (p : params) : M value :=
  config <- getConfig ;;
  loggingService <- getLoggingService ;;
  httpClient <- getAuthenticatedHttpClient ;;
  configureAnalytics (analyticsService p)
    (VObj [("config", config);
           ("loggingService", loggingService);
           ("httpClient", httpClient)]).

Definition wire_i18n (p : params) : M value :=
  config <- getConfig ;;
  loggingService <- getLoggingService ;;
  configureI18n
    (VObj [("messages", messages p);
           ("config", config);
           ("loggingService", loggingService)]).

(** The body of the [try] block (lines 143-193). *)
Definition try_block (h : handlers) (p : params) : M unit :=
  (* Pub/Sub *)
  step (Handler PubSub) [] (await (h_pubSub h [])) ;;
  publish APP_PUBSUB_INITIALIZED None ;;
  (* Configuration *)
  step (Handler Config) [] (await (h_config h [])) ;;
  publish APP_CONFIG_INITIALIZED None ;;
  (* Logging *)
  step (Wiring Logging) [] (wire_logging p) ;;
  step (Handler Logging) [] (await (h_logging h [])) ;;
  publish APP_LOGGING_INITIALIZED None ;;
  (* Authentication *)
  step (Wiring Auth) [] wire_auth ;;
  step (Handler Auth) [requireUser p; hydrateUser p]
       (await (h_auth h [requireUser p; hydrateUser p])) ;;
  publish APP_AUTH_INITIALIZED None ;;
  (* Analytics *)
  step (Wiring Analytics) [] (wire_analytics p) ;;
  step (Handler Analytics) [] (await (h_analytics h [])) ;;
  publish APP_ANALYTICS_INITIALIZED None ;;
  (* Internationalization *)
  step (Wiring I18n) [] (wire_i18n p) ;;
  step (Handler I18n) [] (await (h_i18n h [])) ;;
  publish APP_I18N_INITIALIZED None ;;
  (* Application Ready *)
  step (Handler Ready) [] (await (h_ready h [])) ;;
  publish APP_READY None.

(** The body of the [catch] clause (lines 194-200). *)
Definition catch_block (h : handlers) (error : value) : M unit :=
  isRedirecting <- prop error "isRedirecting" ;;
  if negb (truthy isRedirecting) then
    (* Initialization Error *)
    step ErrorHandler [error] (await (h_initError h [error])) ;;
    publish APP_INIT_ERROR (Some error)
  else ret tt.

(** [export async function initialize({...})] (lines 134-201). *)
Definition initialize (argument : option options) : M value :=
  async (
    p <- lift_completion (destructure argument) ;;
    let handlers := applyOverrideHandlers (overrideHandlers p) in
    try_catch (try_block handlers p) (catch_block handlers)).

End Initialization.

Arguments config_of {St} c.
Arguments logging_service_of {St} c.
Arguments http_client_of {St} c.
Arguments authenticated_user_of {St} c.
Arguments location_of {St} c.
Arguments NewRelicLoggingService {St} c.
Arguments SegmentAnalyticsService {St} c.
Arguments extern {St} c f args sigma.
Arguments ext {St} s.
Arguments calls {St} s.
Arguments trace {St} s.
Arguments start {St} sigma.
Arguments ret {St A} a.
Arguments throw {St A} v.
Arguments bind {St A B} m k.
Arguments try_catch {St A} body handler.
Arguments lift_completion {St A} c.
Arguments prop {St} v k.
Arguments await {St} m.
Arguments async {St} body.
Arguments emit {St} e.
Arguments step {St} at_ args m.
Arguments publish {St} t payload.
Arguments call {St} K f args.
Arguments read {St} f.
Arguments getConfig {St} K.
Arguments getLoggingService {St} K.
Arguments getAuthenticatedHttpClient {St} K.
Arguments getAuthenticatedUser {St} K.
Arguments global_location {St} K.
Arguments configureLogging {St} K service options.
Arguments configureAuth {St} K options.
Arguments configureAnalytics {St} K service options.
Arguments configureI18n {St} K options.
Arguments ensureAuthenticatedUser {St} K redirectUrl.
Arguments fetchAuthenticatedUser {St} K.
Arguments hydrateAuthenticatedUser {St} K.
Arguments identifyAuthenticatedUser {St} K userId.
Arguments identifyAnonymousUser {St} K.
Arguments logError {St} K error.
Arguments initError {St} K args.
Arguments auth {St} K args.
Arguments analytics {St} K args.
Arguments Fn {St} f.
Arguments NotFn {St} v.
Arguments invoke {St} m args.
Arguments o_pubSub {St} o.
Arguments o_config {St} o.
Arguments o_logging {St} o.
Arguments o_auth {St} o.
Arguments o_analytics {St} o.
Arguments o_i18n {St} o.
Arguments o_ready {St} o.
Arguments o_initError {St} o.
Arguments no_overrides {St}.
Arguments h_pubSub {St} h.
Arguments h_config {St} h.
Arguments h_logging {St} h.
Arguments h_auth {St} h.
Arguments h_analytics {St} h.
Arguments h_i18n {St} h.
Arguments h_ready {St} h.
Arguments h_initError {St} h.
Arguments noOp {St} args.
Arguments spread {St} dflt o.
Arguments applyOverrideHandlers {St} K ov.
Arguments opt_loggingService {St} o.
Arguments opt_analyticsService {St} o.
Arguments opt_requireAuthenticatedUser {St} o.
Arguments opt_hydrateAuthenticatedUser {St} o.
Arguments opt_messages {St} o.
Arguments opt_handlers {St} o.
Arguments empty_options {St}.
Arguments loggingService {St} p.
Arguments analyticsService {St} p.
Arguments requireUser {St} p.
Arguments hydrateUser {St} p.
Arguments messages {St} p.
Arguments overrideHandlers {St} p.
Arguments destructure {St} K argument.
Arguments wire_logging {St} K p.
Arguments wire_auth {St} K.
Arguments wire_analytics {St} K p.
Arguments wire_i18n {St} K p.
Arguments try_block {St} K h p.
Arguments catch_block {St} h error.
Arguments initialize {St} K argument.

(** ** Observations on a run *)

(** A topic was published, with whatever payload. *)
Definition published (t : string) (tr : list event) : Prop :=
  exists payload, In (Publish t payload) tr.

(** The publications of a trace, in order. *)
Definition publications (tr : list event) : list (string * option value) :=
  flat_map (fun e => match e with Publish t payload => [(t, payload)] | _ => [] end) tr.

Definition phase_index (p : phase) : nat :=
  match p with
  | PubSub => 0 | Config => 1 | Logging => 2 | Auth => 3
  | Analytics => 4 | I18n => 5 | Ready => 6
  end.

Definition next_phase (p : phase) : option phase :=
  match p with
  | PubSub => Some Config | Config => Some Logging | Logging => Some Auth
  | Auth => Some Analytics | Analytics => Some I18n | I18n => Some Ready
  | Ready => None
  end.

Definition phase_of (x : site) : option phase :=
  match x with
  | Wiring p | Handler p => Some p
  | ErrorHandler => None
  end.

(** The sites of the [try] block, in program order. *)
Definition script : list site :=
  [Handler PubSub; Handler Config;
   Wiring Logging; Handler Logging;
   Wiring Auth; Handler Auth;
   Wiring Analytics; Handler Analytics;
   Wiring I18n; Handler I18n;
   Handler Ready].

Definition announce (x : site) : list event :=
  match x with
  | Handler p => [Publish (topic p) None]
  | _ => []
  end.

(** The traces a sequence of sites can leave: every site completes and is
    announced, up to the first one that throws. *)
Inductive run_of : list site -> list event -> completion unit -> Prop :=
| run_end : run_of [] [] (Normal tt)
| run_throw x rest args v :
    run_of (x :: rest) [Start x args; Done x (Throw v)] (Throw v)
| run_step x rest args r evs c :
    run_of rest evs c ->
    run_of (x :: rest) (Start x args :: Done x (Normal r) :: announce x ++ evs) c.

(** The traces of [initialize] called with an options record, with the
    completion of the call. *)
Inductive initialize_run : list event -> completion value -> Prop :=
| ir_ready evs :
    run_of script evs (Normal tt) ->
    initialize_run evs (Normal (VPromise true VUndefined))
| ir_marker_unreadable evs v e :
    run_of script evs (Throw v) ->
    get v "isRedirecting" = Throw e ->
    initialize_run evs (Normal (VPromise false e))
| ir_redirecting evs v m :
    run_of script evs (Throw v) ->
    get v "isRedirecting" = Normal m -> truthy m = true ->
    initialize_run evs (Normal (VPromise true VUndefined))
| ir_reported evs v m r :
    run_of script evs (Throw v) ->
    get v "isRedirecting" = Normal m -> truthy m = false ->
    initialize_run
      (evs ++ [Start ErrorHandler [v]; Done ErrorHandler (Normal r);
               Publish APP_INIT_ERROR (Some v)])
      (Normal (VPromise true VUndefined))
| ir_report_throws evs v m e :
    run_of script evs (Throw v) ->
    get v "isRedirecting" = Normal m -> truthy m = false ->
    initialize_run
      (evs ++ [Start ErrorHandler [v]; Done ErrorHandler (Throw e)])
      (Normal (VPromise false e)).

(** The completion of [await e] for a completion of the call [e]. *)
Definition awaited (c : completion value) : completion value :=
  match c with
  | Normal r => settle r
  | Throw v => Throw v
  end.

(** The position of a site in program order. *)
Definition rank (x : site) : nat :=
  match x with
  | Wiring p => 2 * phase_index p
  | Handler p => 2 * phase_index p + 1
  | ErrorHandler => 14
  end.

Definition ascending (ss : list site) : Prop :=
  StronglySorted (fun a b => rank a < rank b) ss.

(** The publications of a sequence of sites that all complete. *)
Definition completion_topics (ss : list site) : list (string * option value) :=
  flat_map (fun x => match x with Handler p => [(topic p, None)] | _ => [] end) ss.

(** The events of the [try] block, as opposed to those of the [catch]
    clause. *)
Definition phase_event (e : event) : Prop :=
  match e with
  | Start x _ | Done x _ => x <> ErrorHandler
  | Publish t _ => t <> APP_INIT_ERROR
  end.

(** What the [catch] clause does with a thrown value: the events it adds
    and the completion of [initialize]. *)
Definition caught (v : value) (tail : list event) (r : completion value) : Prop :=
  match get v "isRedirecting" with
  | Throw e => tail = [] /\ r = Normal (VPromise false e)
  | Normal m =>
      if truthy m then tail = [] /\ r = Normal (VPromise true VUndefined)
      else exists c,
          tail = Start ErrorHandler [v] :: Done ErrorHandler c ::
                 match c with
                 | Normal _ => [Publish APP_INIT_ERROR (Some v)]
                 | Throw _ => []
                 end /\
          r = Normal (promise_of c)
  end.

(** The completion topics in the fixed order of the phases. *)
Definition lifecycle : list (string * option value) :=
  map (fun p => (topic p, None)) phases.

(** The sites entered in a trace, in order. *)
Definition started (tr : list event) : list site :=
  flat_map (fun e => match e with Start x _ => [x] | _ => [] end) tr.

(** The [configure...] functions in the order of the wiring blocks. *)
Definition wiring_order : list fn :=
  [ConfigureLogging; ConfigureAuth; ConfigureAnalytics; ConfigureI18n].

(** The same collaborators, except that [hydrateAuthenticatedUser], when it
    returns, returns a promise settled as given. *)
Definition with_hydration_promise {St : Type}
    (fulfilled : bool) (x : value) (K : collaborators St) : collaborators St :=
  {| config_of := config_of K;
     logging_service_of := logging_service_of K;
     http_client_of := http_client_of K;
     authenticated_user_of := authenticated_user_of K;
     location_of := location_of K;
     NewRelicLoggingService := NewRelicLoggingService K;
     SegmentAnalyticsService := SegmentAnalyticsService K;
     extern := fun f args sigma =>
       match f with
       | HydrateAuthenticatedUser =>
           let (sigma', c) := extern K f args sigma in
           (sigma',
            match c with
            | Normal _ => Normal (VPromise fulfilled x)
            | Throw v => Throw v
            end)
       | _ => extern K f args sigma
       end |}.

(** ** Vocabulary of the proofs *)

Section Vocabulary.

Context {St : Type}.

(** [m] keeps the invariant [I], however it completes. *)
Definition preserves {A} (I : state St -> Prop) (m : M St A) : Prop :=
  forall s, I s -> I (fst (m s)).

Definition ignores_ext (I : state St -> Prop) : Prop :=
  forall s sigma, I s -> I {| ext := sigma; calls := calls s; trace := trace s |}.

Definition ignores_trace (I : state St -> Prop) : Prop :=
  forall s tr, I s -> I {| ext := ext s; calls := calls s; trace := tr |}.

Definition admits (I : state St -> Prop) (f : fn) (args : list value) : Prop :=
  forall s sigma,
    I s -> I {| ext := sigma; calls := calls s ++ [(f, args)]; trace := trace s |}.

Definition handler_call (f : fn) : bool :=
  match f with
  | EnsureAuthenticatedUser | FetchAuthenticatedUser | HydrateAuthenticatedUser
  | IdentifyAuthenticatedUser | IdentifyAnonymousUser | LogError => true
  | _ => false
  end.

(** An invariant kept by whatever a handler of the table can do: change the
    collaborators' state and call the imports of the default handlers. *)
Record handler_invariant (I : state St -> Prop) : Prop := {
  hi_ext : ignores_ext I;
  hi_calls : forall f args, handler_call f = true -> admits I f args
}.

Record all_handlers (P : callable St -> Prop) (h : handlers St) : Prop := {
  ah_pubSub : P (h_pubSub h);
  ah_config : P (h_config h);
  ah_logging : P (h_logging h);
  ah_auth : P (h_auth h);
  ah_analytics : P (h_analytics h);
  ah_i18n : P (h_i18n h);
  ah_ready : P (h_ready h);
  ah_initError : P (h_initError h)
}.

(** [m] adds nothing to the trace. *)
Definition quiet {A} (m : M St A) : Prop :=
  forall s, trace (fst (m s)) = trace s.

(** [m] leaves a trace of the sites [ss]. *)
Definition runs (ss : list site) (m : M St unit) : Prop :=
  forall s, exists evs,
    trace (fst (m s)) = trace s ++ evs /\ run_of ss evs (snd (m s)).

(** Two statements that agree on every state. *)
Definition same {A} (m m' : M St A) : Prop := forall s, m s = m' s.

Record same_handlers (h h' : handlers St) : Prop := {
  sh_pubSub : forall args, same (h_pubSub h args) (h_pubSub h' args);
  sh_config : forall args, same (h_config h args) (h_config h' args);
  sh_logging : forall args, same (h_logging h args) (h_logging h' args);
  sh_auth : forall args, same (h_auth h args) (h_auth h' args);
  sh_analytics : forall args, same (h_analytics h args) (h_analytics h' args);
  sh_i18n : forall args, same (h_i18n h args) (h_i18n h' args);
  sh_ready : forall args, same (h_ready h args) (h_ready h' args);
  sh_initError : forall args, same (h_initError h args) (h_initError h' args)
}.

(** An invariant of the calls made so far, and one of the events so far. *)
Definition calls_inv (P : call_record -> Prop) (s : state St) : Prop :=
  Forall P (calls s).

Definition trace_inv (P : event -> Prop) (s : state St) : Prop :=
  Forall P (trace s).

(** The imports called by the default [auth] handler, by the default
    [analytics] handler, and by the wiring blocks. *)
Definition auth_call (f : fn) : bool :=
  match f with
  | EnsureAuthenticatedUser | FetchAuthenticatedUser | HydrateAuthenticatedUser => true
  | _ => false
  end.

Definition analytics_call (f : fn) : bool :=
  match f with
  | IdentifyAuthenticatedUser | IdentifyAnonymousUser => true
  | _ => false
  end.

Definition configure_call (f : fn) : bool :=
  match f with
  | ConfigureLogging | ConfigureAuth | ConfigureAnalytics | ConfigureI18n => true
  | _ => false
  end.

(** The handler of a phase in a table, the overriding property for it, and
    the arguments [initialize] calls it with. *)
Definition handler_of (h : handlers St) (q : phase) : callable St :=
  match q with
  | PubSub => h_pubSub h | Config => h_config h | Logging => h_logging h
  | Auth => h_auth h | Analytics => h_analytics h | I18n => h_i18n h
  | Ready => h_ready h
  end.

Definition override_of (ov : overrides St) (q : phase) : option (member St) :=
  match q with
  | PubSub => o_pubSub ov | Config => o_config ov | Logging => o_logging ov
  | Auth => o_auth ov | Analytics => o_analytics ov | I18n => o_i18n ov
  | Ready => o_ready ov
  end.

Definition handler_args (p : params St) (q : phase) : list value :=
  match q with
  | Auth => [requireUser p; hydrateUser p]
  | _ => []
  end.

(** A statement with a condition on the state before it, one on the state
    after it when it completes, and one when it throws. *)
Definition hoare {A} (P : state St -> Prop) (m : M St A)
    (Q R : state St -> Prop) : Prop :=
  forall s, P s ->
    match m s with
    | (s', Normal _) => Q s'
    | (s', Throw _) => R s'
    end.

(** The [configure...] calls made so far, by name. *)
Definition configured (s : state St) : list fn :=
  map fst (filter (fun c => configure_call (fst c)) (calls s)).

(** The first [k] services, and no other, have been configured. *)
Definition stage (k : nat) (s : state St) : Prop :=
  configured s = firstn k wiring_order.

Definition some_stage (s : state St) : Prop := exists k, stage k s.

Context (K : collaborators St).



(** The wiring block of a phase, if it has one. *)
Definition wiring_of (p : params St) (q : phase) : option (M St value) :=
  match q with
  | Logging => Some (wire_logging K p)
  | Auth => Some (wire_auth K)
  | Analytics => Some (wire_analytics K p)
  | I18n => Some (wire_i18n K p)
  | _ => None
  end.

(** What keeping an invariant through [initialize] asks of the wiring
    blocks and of the handlers of the table. *)
Record kept_by_phases (I : state St -> Prop) (p : params St) : Prop := {
  kp_logging : preserves I (wire_logging K p);
  kp_auth : preserves I (wire_auth K);
  kp_analytics : preserves I (wire_analytics K p);
  kp_i18n : preserves I (wire_i18n K p);
  kp_handler :
    forall q, preserves I (handler_of (applyOverrideHandlers K (overrideHandlers p)) q
                             (handler_args p q));
  kp_initError :
    forall v, preserves I (h_initError (applyOverrideHandlers K (overrideHandlers p)) [v])
}.

(** The options object that the auth wiring builds from the collaborators'
    state [sigma]: each property with the setting it is read from. *)
Definition auth_options_of (sigma : St) (options : value) : Prop :=
  get options "loggingService" = Normal (logging_service_of K sigma) /\
  get options "appBaseUrl" = get (config_of K sigma) "BASE_URL" /\
  get options "lmsBaseUrl" = get (config_of K sigma) "LMS_BASE_URL" /\
  get options "loginUrl" = get (config_of K sigma) "LOGIN_URL" /\
  get options "logoutUrl" = get (config_of K sigma) "LOGIN_URL" /\
  get options "refreshAccessTokenEndpoint" =
    get (config_of K sigma) "REFRESH_ACCESS_TOKEN_ENDPOINT" /\
  get options "accessTokenCookieName" =
    get (config_of K sigma) "ACCESS_TOKEN_COOKIE_NAME" /\
  get options "csrfTokenApiPath" = get (config_of K sigma) "CSRF_TOKEN_API_PATH".

(** What a [configure...] call of a run with the bindings [p] is passed. *)
Definition wired_with (p : params St) (c : call_record) : Prop :=
  match fst c with
  | ConfigureLogging =>
      exists sigma,
        snd c = [loggingService p; VObj [("config", config_of K sigma)]]
  | ConfigureAuth =>
      exists sigma options, snd c = [options] /\ auth_options_of sigma options
  | ConfigureAnalytics =>
      exists sigma,
        snd c = [analyticsService p;
                 VObj [("config", config_of K sigma);
                       ("loggingService", logging_service_of K sigma);
                       ("httpClient", http_client_of K sigma)]]
  | ConfigureI18n =>
      exists sigma,
        snd c = [VObj [("messages", messages p);
                       ("config", config_of K sigma);
                       ("loggingService", logging_service_of K sigma)]]
  | _ => True
  end.

(** ** The trace as an account of the run *)

(** The state after an event was logged. *)
Definition logged (e : event) (s : state St) : state St := fst (emit e s).

(** The code that [initialize] runs at a site, for the bindings [p] and the
    arguments the site is entered with: a wiring block, or the awaited call
    of a handler of the table. *)
Definition code_at (p : params St) (x : site) (args : list value)
    : option (M St value) :=
  let h := applyOverrideHandlers K (overrideHandlers p) in
  match x with
  | Wiring q => wiring_of p q
  | Handler q => Some (await (handler_of h q args))
  | ErrorHandler => Some (await (h_initError h args))
  end.

(** [replay p s tr s']: the events [tr] account for the whole change from
    the state [s] to the state [s']. Each pair of markers of a site stands
    for one run of the code at that site, entered with the recorded
    arguments in the state reached so far and completing as recorded; each
    publication is one call of [publish]; and nothing else happens. *)
Inductive replay (p : params St) : state St -> list event -> state St -> Prop :=
| replay_end s : replay p s [] s
| replay_site s x args m s1 c tr s' :
    code_at p x args = Some m ->
    m (logged (Start x args) s) = (s1, c) ->
    replay p (logged (Done x c) s1) tr s' ->
    replay p s (Start x args :: Done x c :: tr) s'
| replay_publish s t payload tr s' :
    replay p (fst (publish t payload s)) tr s' ->
    replay p s (Publish t payload :: tr) s'.

(** The events that [m] adds to the trace account for what it does. *)
Definition accounted {A} (p : params St) (m : M St A) : Prop :=
  forall s, exists evs,
    trace (fst (m s)) = trace s ++ evs /\ replay p s evs (fst (m s)).

(** In the run from [s0] to [s_end], the site [x] was entered with the
    arguments [args] in the state [s], its code completed with [c] and left
    the state [s'], and the run went on from there. *)
Definition visited (p : params St) (s0 s_end : state St)
    (x : site) (args : list value)
    (s : state St) (c : completion value) (s' : state St) : Prop :=
  exists pre post s_pre m,
    trace s_end = trace s0 ++ pre ++ Start x args :: Done x c :: post /\
    replay p s0 pre s_pre /\
    s = logged (Start x args) s_pre /\
    code_at p x args = Some m /\
    m s = (s', c) /\
    replay p (logged (Done x c) s') post s_end.

(** The call that the wiring block of a phase makes when the collaborators
    are in the state [sigma]. *)
Definition wired_in (p : params St) (q : phase) (sigma : St) (c : call_record) : Prop :=
  match q with
  | Logging =>
      c = (ConfigureLogging,
           [loggingService p; VObj [("config", config_of K sigma)]])
  | Auth =>
      exists options, c = (ConfigureAuth, [options]) /\ auth_options_of sigma options
  | Analytics =>
      c = (ConfigureAnalytics,
           [analyticsService p;
            VObj [("config", config_of K sigma);
                  ("loggingService", logging_service_of K sigma);
                  ("httpClient", http_client_of K sigma)]])
  | I18n =>
      c = (ConfigureI18n,
           [VObj [("messages", messages p);
                  ("config", config_of K sigma);
                  ("loggingService", logging_service_of K sigma)]])
  | _ => False
  end.

(** A call of the run from [s0] to [s_end] that, if it is a [configure...]
    call, was made by the wiring block of a phase, with the arguments that
    the block builds from the state of the collaborators at that moment. *)
Definition wired_by (p : params St) (s0 s_end : state St) (c : call_record) : Prop :=
  configure_call (fst c) = true ->
  exists q args s cmp s',
    visited p s0 s_end (Wiring q) args s cmp s' /\
    calls s' = calls s ++ [c] /\
    wired_in p q (ext s) c.

End Vocabulary.

(** ** Concrete collaborators and options *)

Module Scenario.

(** The collaborators' state: the authenticated user, once fetched. *)
Definition user_record : value :=
  VObj [("userId", VNum 42); ("username", VStr "edx")].

Definition settings : value :=
  VObj [("BASE_URL", VStr "https://app.example");
        ("LMS_BASE_URL", VStr "https://lms.example");
        ("LOGIN_URL", VStr "https://lms.example/login");
        ("LOGOUT_URL", VStr "https://lms.example/logout")].

Definition resolved : value := VPromise true VUndefined.

(** A signed-in session: fetching or ensuring the user stores it. *)
Definition session : collaborators value :=
  {| config_of := fun _ => settings;
     logging_service_of := fun _ => VStr "loggingService";
     http_client_of := fun _ => VStr "httpClient";
     authenticated_user_of := fun user => user;
     location_of := fun _ => VObj [("href", VStr "https://app.example/home")];
     NewRelicLoggingService := VStr "NewRelicLoggingService";
     SegmentAnalyticsService := VStr "SegmentAnalyticsService";
     extern := fun f _ user =>
       match f with
       | EnsureAuthenticatedUser | FetchAuthenticatedUser => (user_record, Normal resolved)
       | HydrateAuthenticatedUser => (user, Normal resolved)
       | _ => (user, Normal VUndefined)
       end |}.

Definition redirect_error : value :=
  VObj [("message", VStr "Failed to ensure the user is authenticated");
        ("isRedirecting", VBool true)].

(** No session: [ensureAuthenticatedUser] redirects to the login page. *)
Definition signed_out : collaborators value :=
  {| config_of := config_of session;
     logging_service_of := logging_service_of session;
     http_client_of := http_client_of session;
     authenticated_user_of := authenticated_user_of session;
     location_of := location_of session;
     NewRelicLoggingService := NewRelicLoggingService session;
     SegmentAnalyticsService := SegmentAnalyticsService session;
     extern := fun f args user =>
       match f with
       | EnsureAuthenticatedUser => (user, Normal (VPromise false redirect_error))
       | FetchAuthenticatedUser => (user, Normal resolved)
       | _ => extern session f args user
       end |}.

Definition logging_failure : value := VObj [("message", VStr "logging is down")].

(** A logging service whose [logError] throws. *)
Definition broken_logging : collaborators value :=
  {| config_of := config_of session;
     logging_service_of := logging_service_of session;
     http_client_of := http_client_of session;
     authenticated_user_of := authenticated_user_of session;
     location_of := location_of session;
     NewRelicLoggingService := NewRelicLoggingService session;
     SegmentAnalyticsService := SegmentAnalyticsService session;
     extern := fun f args user =>
       match f with
       | LogError => (user, Throw logging_failure)
       | _ => extern session f args user
       end |}.

Definition require_and_hydrate : options value :=
  {| opt_loggingService := VUndefined;
     opt_analyticsService := VUndefined;
     opt_requireAuthenticatedUser := VBool true;
     opt_hydrateAuthenticatedUser := VBool true;
     opt_messages := VUndefined;
     opt_handlers := None |}.

Definition with_handlers (ov : overrides value) : options value :=
  {| opt_loggingService := VUndefined;
     opt_analyticsService := VUndefined;
     opt_requireAuthenticatedUser := VUndefined;
     opt_hydrateAuthenticatedUser := VUndefined;
     opt_messages := VUndefined;
     opt_handlers := Some ov |}.

Definition plain_error : value := VObj [("message", VStr "analytics failed")].

(** [handlers: { analytics: async () => { throw new Error(...) } }] *)
Definition analytics_fails : overrides value :=
  {| o_pubSub := None; o_config := None; o_logging := None; o_auth := None;
     o_analytics := Some (Fn (fun _ user => (user, Normal (VPromise false plain_error))));
     o_i18n := None; o_ready := None; o_initError := None |}.

(** [handlers: { pubSub: () => Promise.reject() }] *)
Definition pubSub_rejects_with_undefined : overrides value :=
  {| o_pubSub := Some (Fn (fun _ user => (user, Normal (VPromise false VUndefined))));
     o_config := None; o_logging := None; o_auth := None; o_analytics := None;
     o_i18n := None; o_ready := None; o_initError := None |}.

Definition render_failure : value := VObj [("message", VStr "cannot render the error page")].

(** A failing analytics handler and an [initError] override that throws. *)
Definition initError_throws : overrides value :=
  {| o_pubSub := None; o_config := None; o_logging := None; o_auth := None;
     o_analytics := Some (Fn (fun _ user => (user, Normal (VPromise false plain_error))));
     o_i18n := None; o_ready := None;
     o_initError := Some (Fn (fun _ user => (user, Normal (VPromise false render_failure)))) |}.

(** [handlers: { i18n: 5 }] *)
Definition i18n_is_not_a_function : overrides value :=
  {| o_pubSub := None; o_config := None; o_logging := None; o_auth := None;
     o_analytics := None; o_i18n := Some (NotFn (VNum 5)); o_ready := None;
     o_initError := None |}.

(** A page whose configuration was never set: [getConfig()] is undefined. *)
Definition unconfigured : collaborators value :=
  {| config_of := fun _ => VUndefined;
     logging_service_of := logging_service_of session;
     http_client_of := http_client_of session;
     authenticated_user_of := authenticated_user_of session;
     location_of := location_of session;
     NewRelicLoggingService := NewRelicLoggingService session;
     SegmentAnalyticsService := SegmentAnalyticsService session;
     extern := extern session |}.

(** Outside a browser: [global.location] is undefined. *)
Definition no_browser : collaborators value :=
  {| config_of := config_of session;
     logging_service_of := logging_service_of session;
     http_client_of := http_client_of session;
     authenticated_user_of := authenticated_user_of session;
     location_of := fun _ => VUndefined;
     NewRelicLoggingService := NewRelicLoggingService session;
     SegmentAnalyticsService := SegmentAnalyticsService session;
     extern := extern session |}.

End Scenario.

(** * Properties *)

Section Frames.

Context {St : Type}.

Implicit Types I : state St -> Prop.

(** ** What a statement leaves unchanged *)

Lemma preserves_ret {A} I (a : A) : preserves I (ret a).
Proof. intros s H. exact H. Qed.

Lemma preserves_throw {A} I v : preserves I (@throw St A v).
Proof. intros s H. exact H. Qed.

Lemma preserves_lift_completion {A} I (c : completion A) :
  preserves I (lift_completion c).
Proof. intros s H. exact H. Qed.

Lemma preserves_prop I v k : preserves I (prop v k).
Proof. apply preserves_lift_completion. Qed.

Lemma preserves_read I f : preserves I (read f).
Proof. intros s H. exact H. Qed.

Lemma preserves_bind {A B} I (m : M St A) (k : A -> M St B) :
  preserves I m -> (forall a, preserves I (k a)) -> preserves I (bind m k).
Proof.
  intros Hm Hk s H. unfold bind.
  specialize (Hm s H). destruct (m s) as [s' [a | v]]; simpl in *.
  - apply Hk, Hm.
  - exact Hm.
Qed.

Lemma preserves_try_catch {A} I (m : M St A) (k : value -> M St A) :
  preserves I m -> (forall v, preserves I (k v)) -> preserves I (try_catch m k).
Proof.
  intros Hm Hk s H. unfold try_catch.
  specialize (Hm s H). destruct (m s) as [s' [a | v]]; simpl in *.
  - exact Hm.
  - apply Hk, Hm.
Qed.

Lemma preserves_await I (m : M St value) : preserves I m -> preserves I (await m).
Proof.
  intros Hm. unfold await. apply preserves_bind; [exact Hm |].
  intros r. apply preserves_lift_completion.
Qed.

Lemma preserves_async I (m : M St unit) : preserves I m -> preserves I (async m).
Proof.
  intros Hm s H. unfold async. specialize (Hm s H).
  destruct (m s) as [s' c]. exact Hm.
Qed.

Lemma preserves_if {A} I (b : bool) (m1 m2 : M St A) :
  preserves I m1 -> preserves I m2 -> preserves I (if b then m1 else m2).
Proof. destruct b; auto. Qed.

Lemma preserves_call I (K : collaborators St) f args :
  admits I f args -> preserves I (call K f args).
Proof.
  intros Hf s H. unfold call.
  destruct (extern K f args (ext s)) as [sigma c]. simpl. apply Hf, H.
Qed.

Lemma preserves_invoke I (m : member St) args :
  ignores_ext I -> preserves I (invoke m args).
Proof.
  intros HI s H. destruct m as [f | v]; simpl.
  - destruct (f args (ext s)) as [sigma c]. simpl. apply HI, H.
  - exact H.
Qed.

Lemma preserves_emit I e : ignores_trace I -> preserves I (@emit St e).
Proof. intros HI s H. simpl. apply HI, H. Qed.

Lemma preserves_step I x args (m : M St value) :
  ignores_trace I -> preserves I m -> preserves I (step x args m).
Proof.
  intros HI Hm s H. unfold step. simpl.
  match goal with |- context [m ?s0] => specialize (Hm s0 (HI s _ H)); destruct (m s0) as [s1 c] end.
  simpl in *. apply HI, Hm.
Qed.

End Frames.

(** ** Facts on traces *)

Section Traces.

(** The handlers of the script are those of the phases, in order. *)
Lemma script_phases :
  completion_topics script = map (fun p => (topic p, None)) phases.
Proof. reflexivity. Qed.

Lemma script_ascending : ascending script.
Proof. unfold ascending, script. repeat constructor; simpl; lia. Qed.

Lemma topic_injective p q : topic p = topic q -> p = q.
Proof. destruct p, q; intros H; try reflexivity; discriminate H. Qed.

Lemma topic_not_error p : topic p <> APP_INIT_ERROR.
Proof. destruct p; intros H; discriminate H. Qed.

Lemma in_announce e x :
  In e (announce x) -> exists p, x = Handler p /\ e = Publish (topic p) None.
Proof.
  destruct x as [p | p |]; simpl; intros H; try contradiction.
  destruct H as [<- | []]. exists p. split; reflexivity.
Qed.

(** The events of a run belong to the sites it went through. *)
Lemma run_of_sites ss evs c :
  run_of ss evs c ->
  forall e, In e evs ->
    match e with
    | Start x _ | Done x _ => In x ss
    | Publish t payload => exists p, In (Handler p) ss /\ t = topic p /\ payload = None
    end.
Proof.
  induction 1 as [| x rest args v | x rest args r evs c _ IH]; intros e He.
  - contradiction.
  - destruct He as [<- | [<- | []]]; left; reflexivity.
  - destruct He as [<- | [<- | He]]; try (left; reflexivity).
    apply in_app_or in He. destruct He as [He | He].
    + apply in_announce in He. destruct He as (p & -> & ->).
      exists p. split; [left; reflexivity | split; reflexivity].
    + specialize (IH e He). destruct e as [y a | y cy | t payload].
      * right. exact IH.
      * right. exact IH.
      * destruct IH as (p & Hp & Ht). exists p. split; [right; exact Hp | exact Ht].
Qed.

(** Only the completion of the run is ever thrown in it. *)
Lemma run_of_thrown ss evs c x v :
  run_of ss evs c -> In (Done x (Throw v)) evs -> c = Throw v.
Proof.
  induction 1 as [| y rest args w | y rest args r evs c _ IH]; intros He.
  - contradiction.
  - destruct He as [He | [He | []]]; [discriminate He | ].
    injection He as _ ->. reflexivity.
  - destruct He as [He | [He | He]]; try discriminate He.
    apply in_app_or in He. destruct He as [He | He].
    + apply in_announce in He. destruct He as (p & _ & He). discriminate He.
    + apply IH, He.
Qed.

(** A run that throws ends with the record of that throw. *)
Lemma run_of_throw_last ss evs v :
  run_of ss evs (Throw v) ->
  exists pre x, evs = pre ++ [Done x (Throw v)] /\ In x ss.
Proof.
  remember (Throw v) as c eqn:Ec. intros H. revert Ec.
  induction H as [| y rest args w | y rest args r evs c _ IH]; intros Ec.
  - discriminate Ec.
  - injection Ec as ->. exists [Start y args], y. split; [reflexivity | left; reflexivity].
  - destruct (IH Ec) as (pre & x & -> & Hx).
    exists (Start y args :: Done y (Normal r) :: announce y ++ pre), x. split.
    + simpl. rewrite <- app_assoc. reflexivity.
    + right. exact Hx.
Qed.

(** A run that completes announces every handler once, in order. *)
Lemma run_of_normal_publications ss evs :
  run_of ss evs (Normal tt) -> publications evs = completion_topics ss.
Proof.
  remember (Normal tt) as c eqn:Ec. intros H. revert Ec.
  induction H as [| y rest args w | y rest args r evs c _ IH]; intros Ec.
  - reflexivity.
  - discriminate Ec.
  - unfold publications in *. simpl. rewrite flat_map_app, (IH Ec).
    destruct y; reflexivity.
Qed.

(** A completion topic is in the trace exactly when the handler resolved. *)
Lemma run_of_published_iff ss evs c p :
  run_of ss evs c ->
  (published (topic p) evs <-> exists r, In (Done (Handler p) (Normal r)) evs).
Proof.
  intros H. split.
  - intros [payload Hp]. induction H as [| y rest args w | y rest args r evs c _ IH].
    + contradiction.
    + destruct Hp as [Hp | [Hp | []]]; discriminate Hp.
    + destruct Hp as [Hp | [Hp | Hp]]; try discriminate Hp.
      apply in_app_or in Hp. destruct Hp as [Hp | Hp].
      * apply in_announce in Hp. destruct Hp as (q & -> & Hq).
        injection Hq as Hq _. apply topic_injective in Hq. subst q.
        exists r. right. left. reflexivity.
      * destruct (IH Hp) as [r' Hr']. exists r'. right. right.
        apply in_or_app. right. exact Hr'.
  - intros [r' Hr]. induction H as [| y rest args w | y rest args r evs c _ IH].
    + contradiction.
    + destruct Hr as [Hr | [Hr | []]]; discriminate Hr.
    + destruct Hr as [Hr | [Hr | Hr]]; try discriminate Hr.
      * injection Hr as -> _. exists None. right. right. left. reflexivity.
      * apply in_app_or in Hr. destruct Hr as [Hr | Hr].
        -- apply in_announce in Hr. destruct Hr as (q & _ & Hq). discriminate Hq.
        -- destruct (IH Hr) as [payload Hp]. exists payload. right. right.
           apply in_or_app. right. exact Hp.
Qed.

(** What is published in a run that throws was announced by a handler that
    comes before the site of the throw. *)
Lemma run_of_published_before ss evs c x v q :
  run_of ss evs c -> ascending ss ->
  In (Done x (Throw v)) evs -> published (topic q) evs ->
  rank (Handler q) < rank x.
Proof.
  intros H. induction H as [| y rest args w | y rest args r evs c H IH];
    intros Hs Hx [payload Hq].
  - contradiction.
  - destruct Hq as [Hq | [Hq | []]]; discriminate Hq.
  - apply StronglySorted_inv in Hs. destruct Hs as [Hs Hy].
    destruct Hx as [Hx | [Hx | Hx]]; try discriminate Hx.
    apply in_app_or in Hx. destruct Hx as [Hx | Hx].
    { apply in_announce in Hx. destruct Hx as (p & _ & Hx). discriminate Hx. }
    assert (Hyx : rank y < rank x).
    { rewrite Forall_forall in Hy. apply Hy. apply (run_of_sites _ _ _ H _ Hx). }
    destruct Hq as [Hq | [Hq | Hq]]; try discriminate Hq.
    apply in_app_or in Hq. destruct Hq as [Hq | Hq].
    + apply in_announce in Hq. destruct Hq as (p & -> & Hq).
      injection Hq as Hq _. apply topic_injective in Hq. subst p. exact Hyx.
    + apply IH; trivial. exists payload. exact Hq.
Qed.

(** When a handler starts, the handlers before it have been announced. *)
Lemma run_of_start_after ss evs c q args l1 l2 p :
  run_of ss evs c -> ascending ss ->
  evs = l1 ++ Start (Handler q) args :: l2 ->
  In (Handler p) ss -> rank (Handler p) < rank (Handler q) ->
  In (Publish (topic p) None) l1.
Proof.
  intros H. revert l1.
  induction H as [| y rest a w | y rest a r evs c H IH]; intros l1 Hs E Hp Hlt.
  - destruct l1; discriminate E.
  - apply StronglySorted_inv in Hs. destruct Hs as [_ Hy].
    rewrite Forall_forall in Hy.
    destruct l1 as [| e1 [| e2 [| e3 l1]]]; try discriminate E.
    injection E as -> _ _.
    destruct Hp as [Hp | Hp].
    + injection Hp as ->. lia.
    + apply Hy in Hp. lia.
  - apply StronglySorted_inv in Hs. destruct Hs as [Hs Hy].
    rewrite Forall_forall in Hy.
    destruct l1 as [| e1 [| e2 l1]]; try discriminate E.
    + injection E as -> _ _.
      destruct Hp as [Hp | Hp].
      * injection Hp as ->. lia.
      * apply Hy in Hp. lia.
    + injection E as <- <- E.
      destruct y as [py | py |]; simpl in E.
      * destruct Hp as [Hp | Hp]; [discriminate Hp |].
        right. right. apply (IH l1 Hs E Hp Hlt).
      * destruct l1 as [| e3 l1]; [discriminate E |].
        injection E as <- E.
        destruct Hp as [Hp | Hp].
        -- injection Hp as ->. right. right. left. reflexivity.
        -- right. right. right. apply (IH l1 Hs E Hp Hlt).
      * destruct Hp as [Hp | Hp]; [discriminate Hp |].
        right. right. apply (IH l1 Hs E Hp Hlt).
Qed.

Lemma script_no_error_handler : ~ In ErrorHandler script.
Proof. simpl. intuition discriminate. Qed.

Lemma run_of_phase_event evs c e :
  run_of script evs c -> In e evs -> phase_event e.
Proof.
  intros H He. pose proof (run_of_sites _ _ _ H e He) as Hs.
  destruct e as [x a | x cx | t payload]; simpl.
  - intros ->. apply script_no_error_handler, Hs.
  - intros ->. apply script_no_error_handler, Hs.
  - destruct Hs as (p & _ & -> & _). apply topic_not_error.
Qed.

(** Every run of [initialize] is a run of the [try] block followed by
    events of the [catch] clause. *)
Lemma initialize_run_split tr r :
  initialize_run tr r ->
  exists evs c tail,
    tr = evs ++ tail /\ run_of script evs c /\
    (forall e, In e tail -> ~ phase_event e).
Proof.
  intros H. destruct H as [evs R | evs v e R _ | evs v m R _ _
                           | evs v m r R _ _ | evs v m e R _ _].
  - exists evs, (Normal tt), []. rewrite app_nil_r. split; [reflexivity |].
    split; [exact R | intros e []].
  - exists evs, (Throw v), []. rewrite app_nil_r. split; [reflexivity |].
    split; [exact R | intros e0 []].
  - exists evs, (Throw v), []. rewrite app_nil_r. split; [reflexivity |].
    split; [exact R | intros e []].
  - eexists evs, (Throw v), _. split; [reflexivity |]. split; [exact R |].
    intros e [<- | [<- | [<- | []]]] He; simpl in He; apply He; reflexivity.
  - eexists evs, (Throw v), _. split; [reflexivity |]. split; [exact R |].
    intros e0 [<- | [<- | []]] He; simpl in He; apply He; reflexivity.
Qed.

(** The record of a throw is the last event of the run. *)
Lemma run_of_thrown_last ss evs c x v :
  run_of ss evs c -> In (Done x (Throw v)) evs ->
  exists pre, evs = pre ++ [Done x (Throw v)].
Proof.
  induction 1 as [| y rest args w | y rest args r evs c _ IH]; intros He.
  - contradiction.
  - destruct He as [He | [He | []]]; [discriminate He |].
    rewrite He. exists [Start y args]. reflexivity.
  - destruct He as [He | [He | He]]; try discriminate He.
    apply in_app_or in He. destruct He as [He | He].
    + apply in_announce in He. destruct He as (p & _ & He). discriminate He.
    + destruct (IH He) as [pre ->].
      exists (Start y args :: Done y (Normal r) :: announce y ++ pre).
      simpl. rewrite <- app_assoc. reflexivity.
Qed.

(** A run in which a phase throws: the [try] block ends there and the
    [catch] clause takes over. *)
Lemma initialize_run_thrown tr r x v :
  initialize_run tr r -> x <> ErrorHandler -> In (Done x (Throw v)) tr ->
  exists pre tail,
    tr = (pre ++ [Done x (Throw v)]) ++ tail /\
    run_of script (pre ++ [Done x (Throw v)]) (Throw v) /\
    caught v tail r.
Proof.
  intros H Hx He.
  assert (Hin : forall evs T, In (Done x (Throw v)) (evs ++ T) ->
                  (forall e, In e T -> ~ phase_event e) ->
                  In (Done x (Throw v)) evs).
  { intros evs T Hi HT. apply in_app_or in Hi. destruct Hi as [Hi | Hi]; trivial.
    exfalso. apply (HT _ Hi). exact Hx. }
  assert (Hsame : forall evs w, run_of script evs (Throw w) ->
                    In (Done x (Throw v)) evs ->
                    w = v /\ exists pre, evs = pre ++ [Done x (Throw v)]).
  { intros evs w R Hi. split.
    - pose proof (run_of_thrown _ _ _ _ _ R Hi) as E. injection E as ->. reflexivity.
    - apply (run_of_thrown_last _ _ _ _ _ R Hi). }
  destruct H as [evs R | evs w e R Em | evs w m R Em Et
                 | evs w m r R Em Et | evs w m e R Em Et].
  - pose proof (run_of_thrown _ _ _ _ _ R He) as E. discriminate E.
  - destruct (Hsame _ _ R He) as [-> [pre ->]].
    exists pre, []. rewrite app_nil_r. split; [reflexivity |]. split; [exact R |].
    unfold caught. rewrite Em. split; reflexivity.
  - destruct (Hsame _ _ R He) as [-> [pre ->]].
    exists pre, []. rewrite app_nil_r. split; [reflexivity |]. split; [exact R |].
    unfold caught. rewrite Em, Et. split; reflexivity.
  - assert (Hi : In (Done x (Throw v)) evs).
    { apply (Hin _ _ He). intros e0 [<- | [<- | [<- | []]]] H0; apply H0; reflexivity. }
    destruct (Hsame _ _ R Hi) as [-> [pre ->]].
    eexists pre, _. split; [reflexivity |]. split; [exact R |].
    unfold caught. rewrite Em, Et. exists (Normal r). split; reflexivity.
  - assert (Hi : In (Done x (Throw v)) evs).
    { apply (Hin _ _ He). intros e0 [<- | [<- | []]] H0; apply H0; reflexivity. }
    destruct (Hsame _ _ R Hi) as [-> [pre ->]].
    eexists pre, _. split; [reflexivity |]. split; [exact R |].
    unfold caught. rewrite Em, Et. exists (Throw e). split; reflexivity.
Qed.


(** In a run in which the site [x] throws, the completion topic of its phase
    and those of the later phases are not published. *)
Lemma thrown_stops_topics evs tail x v p q :
  run_of script evs (Throw v) ->
  (forall e, In e tail -> ~ phase_event e) ->
  In (Done x (Throw v)) evs ->
  phase_of x = Some p -> phase_index p <= phase_index q ->
  ~ published (topic q) (evs ++ tail).
Proof.
  intros R HT Hx Hp Hle [payload Hq].
  apply in_app_or in Hq. destruct Hq as [Hq | Hq].
  - assert (Hlt : rank (Handler q) < rank x).
    { apply (run_of_published_before _ _ _ _ _ _ R script_ascending Hx).
      exists payload. exact Hq. }
    destruct x as [px | px |]; simpl in Hp; try discriminate Hp;
      injection Hp as ->; simpl in Hlt; lia.
  - apply (HT _ Hq). simpl. apply topic_not_error.
Qed.

End Traces.

Section Runs.

Context {St : Type} (K : collaborators St).

Implicit Types I : state St -> Prop.

(** ** The handlers leave the trace alone *)

Create HintDb frame.

#[local] Hint Resolve preserves_ret preserves_throw preserves_lift_completion
  preserves_prop preserves_read preserves_bind preserves_try_catch
  preserves_await preserves_async preserves_if preserves_call
  preserves_invoke preserves_emit preserves_step : frame.

Lemma noOp_preserves I args : preserves I (@noOp St args).
Proof. unfold noOp. auto with frame. Qed.

Lemma initError_preserves I args :
  handler_invariant I -> preserves I (initError K args).
Proof.
  intros [_ Hc]. unfold initError, logError.
  apply preserves_async, preserves_bind; [| auto with frame].
  apply preserves_call, Hc. reflexivity.
Qed.

Lemma auth_preserves I args :
  handler_invariant I -> preserves I (auth K args).
Proof.
  intros [_ Hc]. unfold auth, ensureAuthenticatedUser, fetchAuthenticatedUser,
    hydrateAuthenticatedUser, getAuthenticatedUser, global_location.
  apply preserves_async, preserves_bind.
  - apply preserves_if.
    + apply preserves_bind; [auto with frame |]. intros loc.
      apply preserves_bind; [auto with frame |]. intros href.
      apply preserves_await, preserves_call, Hc. reflexivity.
    + apply preserves_await, preserves_call, Hc. reflexivity.
  - intros _. apply preserves_bind.
    + apply preserves_if; auto with frame.
    + intros cond. apply preserves_if; [| auto with frame].
      apply preserves_bind; [| auto with frame].
      apply preserves_call, Hc. reflexivity.
Qed.

Lemma analytics_preserves I args :
  handler_invariant I -> preserves I (analytics K args).
Proof.
  intros [_ Hc]. unfold analytics, identifyAuthenticatedUser,
    identifyAnonymousUser, getAuthenticatedUser.
  apply preserves_async, preserves_bind; [auto with frame |].
  intros user. apply preserves_bind; [auto with frame |].
  intros cond. apply preserves_if.
  - apply preserves_bind; [auto with frame |]. intros userId.
    apply preserves_bind; [| auto with frame].
    apply preserves_call, Hc. reflexivity.
  - apply preserves_bind; [| auto with frame].
    apply preserves_call, Hc. reflexivity.
Qed.

Lemma spread_preserves I dflt o :
  handler_invariant I ->
  (forall args, preserves I (dflt args)) ->
  forall args, preserves I (spread dflt o args).
Proof.
  intros [He _] Hd args. destruct o as [m |]; simpl.
  - apply preserves_invoke, He.
  - apply Hd.
Qed.

(** Every handler of the effective table, default or override, keeps every
    handler invariant. *)
Lemma applyOverrideHandlers_preserves I ov :
  handler_invariant I ->
  all_handlers (fun c => forall args, preserves I (c args))
               (applyOverrideHandlers K ov).
Proof.
  intros HI. split; simpl; apply spread_preserves; trivial; intros args.
  - apply noOp_preserves.
  - apply noOp_preserves.
  - apply noOp_preserves.
  - apply auth_preserves, HI.
  - apply analytics_preserves, HI.
  - apply noOp_preserves.
  - apply noOp_preserves.
  - apply initError_preserves, HI.
Qed.

Lemma trace_is_handler_invariant t :
  handler_invariant (fun s : state St => trace s = t).
Proof. split; [intros s sigma H | intros f args _ s sigma H]; exact H. Qed.

Lemma quiet_intro {A} (m : M St A) :
  (forall t, preserves (fun s => trace s = t) m) -> quiet m.
Proof. intros H s. apply (H (trace s) s). reflexivity. Qed.

Lemma applyOverrideHandlers_quiet ov :
  all_handlers (fun c => forall args, quiet (await (c args)))
               (applyOverrideHandlers K ov).
Proof.
  assert (H : forall t,
    all_handlers (fun c => forall args, preserves (fun s => trace s = t) (c args))
                 (applyOverrideHandlers K ov))
    by (intros t; apply applyOverrideHandlers_preserves, trace_is_handler_invariant).
  split; intros args; apply quiet_intro; intros t; apply preserves_await;
    destruct (H t) as [? ? ? ? ? ? ? ?]; trivial.
Qed.

Lemma call_quiet f args : quiet (call K f args).
Proof.
  apply quiet_intro. intros t. apply preserves_call. intros s sigma H. exact H.
Qed.

Lemma wire_logging_quiet p : quiet (wire_logging K p).
Proof.
  apply quiet_intro. intros t. unfold wire_logging, getConfig, configureLogging.
  apply preserves_bind; [auto with frame |]. intros c.
  apply preserves_call. intros s sigma H. exact H.
Qed.

Lemma wire_auth_quiet : quiet (wire_auth K).
Proof.
  apply quiet_intro. intros t.
  unfold wire_auth, getConfig, getLoggingService, configureAuth.
  repeat (apply preserves_bind; [auto 6 with frame | intro]).
  apply preserves_call. intros s sigma H. exact H.
Qed.

Lemma wire_analytics_quiet p : quiet (wire_analytics K p).
Proof.
  apply quiet_intro. intros t.
  unfold wire_analytics, getConfig, getLoggingService,
    getAuthenticatedHttpClient, configureAnalytics.
  repeat (apply preserves_bind; [auto with frame | intro]).
  apply preserves_call. intros s sigma H. exact H.
Qed.

Lemma wire_i18n_quiet p : quiet (wire_i18n K p).
Proof.
  apply quiet_intro. intros t.
  unfold wire_i18n, getConfig, getLoggingService, configureI18n.
  repeat (apply preserves_bind; [auto with frame | intro]).
  apply preserves_call. intros s sigma H. exact H.
Qed.

(** ** The shape of every run *)

Lemma step_quiet x args (m : M St value) s :
  quiet m ->
  exists s' c,
    step x args m s = (s', c) /\
    trace s' = trace s ++ [Start x args; Done x c].
Proof.
  intros Hm. unfold step. simpl.
  set (s0 := {| ext := ext s; calls := calls s; trace := trace s ++ [Start x args] |}).
  specialize (Hm s0). destruct (m s0) as [s1 c]. simpl in *.
  eexists _, c. split; [reflexivity |].
  simpl. rewrite Hm. unfold s0. simpl. rewrite <- app_assoc. reflexivity.
Qed.

Lemma runs_wiring p (m : M St value) (k : M St unit) rest :
  quiet m -> runs rest k ->
  runs (Wiring p :: rest) (bind (step (Wiring p) [] m) (fun _ => k)).
Proof.
  intros Hm Hk s. unfold bind.
  destruct (step_quiet (Wiring p) [] m s Hm) as (s' & c & E & T).
  rewrite E. destruct c as [r | v].
  - destruct (Hk s') as (evs & T' & R).
    exists (Start (Wiring p) [] :: Done (Wiring p) (Normal r) :: evs). split.
    + rewrite T', T, <- app_assoc. reflexivity.
    + apply (run_step (Wiring p) rest [] r evs _ R).
  - exists [Start (Wiring p) []; Done (Wiring p) (Throw v)]. split.
    + exact T.
    + apply run_throw.
Qed.

Lemma runs_handler p args (m : M St value) (k : M St unit) rest :
  quiet m -> runs rest k ->
  runs (Handler p :: rest)
       (bind (step (Handler p) args m)
             (fun _ => bind (publish (topic p) None) (fun _ => k))).
Proof.
  intros Hm Hk s. unfold bind, publish, emit.
  destruct (step_quiet (Handler p) args m s Hm) as (s' & c & E & T).
  rewrite E. destruct c as [r | v].
  - cbv beta iota.
    match goal with |- context [k ?s1] => destruct (Hk s1) as (evs & T' & R) end.
    simpl in T'.
    exists (Start (Handler p) args :: Done (Handler p) (Normal r)
              :: Publish (topic p) None :: evs). split.
    + rewrite T', T, <- !app_assoc. reflexivity.
    + apply (run_step (Handler p) rest args r evs _ R).
  - exists [Start (Handler p) args; Done (Handler p) (Throw v)]. split.
    + exact T.
    + apply run_throw.
Qed.

Lemma runs_handler_last p args (m : M St value) :
  quiet m ->
  runs [Handler p]
       (bind (step (Handler p) args m) (fun _ => publish (topic p) None)).
Proof.
  intros Hm s. unfold bind.
  destruct (step_quiet (Handler p) args m s Hm) as (s' & c & E & T).
  rewrite E. destruct c as [r | v].
  - exists [Start (Handler p) args; Done (Handler p) (Normal r);
            Publish (topic p) None]. split.
    + simpl. rewrite T, <- app_assoc. reflexivity.
    + apply (run_step (Handler p) [] args r [] _ run_end).
  - exists [Start (Handler p) args; Done (Handler p) (Throw v)]. split.
    + exact T.
    + apply run_throw.
Qed.

Lemma try_block_runs h p :
  all_handlers (fun c => forall args, quiet (await (c args))) h ->
  runs script (try_block K h p).
Proof.
  intros [H1 H2 H3 H4 H5 H6 H7 _]. unfold try_block, script.
  apply (runs_handler PubSub); [apply H1 |].
  apply (runs_handler Config); [apply H2 |].
  apply runs_wiring; [apply wire_logging_quiet |].
  apply (runs_handler Logging); [apply H3 |].
  apply runs_wiring; [apply wire_auth_quiet |].
  apply (runs_handler Auth); [apply H4 |].
  apply runs_wiring; [apply wire_analytics_quiet |].
  apply (runs_handler Analytics); [apply H5 |].
  apply runs_wiring; [apply wire_i18n_quiet |].
  apply (runs_handler I18n); [apply H6 |].
  apply (runs_handler_last Ready); apply H7.
Qed.

Lemma initialize_runs o s :
  exists evs,
    trace (fst (initialize K (Some o) s)) = trace s ++ evs /\
    initialize_run evs (snd (initialize K (Some o) s)).
Proof.
  unfold initialize, async, bind, lift_completion, try_catch. simpl destructure.
  cbv iota beta.
  set (p := {| loggingService := _ |}).
  set (h := applyOverrideHandlers K (overrideHandlers p)).
  assert (Hq : all_handlers (fun c => forall args, quiet (await (c args))) h)
    by apply applyOverrideHandlers_quiet.
  destruct (try_block_runs h p Hq s) as (evs & T & R).
  destruct (try_block K h p s) as [s1 [[] | v]]; simpl in T, R.
  - exists evs. split; [exact T | apply ir_ready, R].
  - unfold catch_block, bind, prop, lift_completion.
    destruct (get v "isRedirecting") as [m | e] eqn:Em.
    + destruct (truthy m) eqn:Et; cbn [negb]; cbv beta iota.
      * exists evs. split; [exact T | eapply ir_redirecting; eauto].
      * destruct Hq as [_ _ _ _ _ _ _ He].
        destruct (step_quiet ErrorHandler [v] _ s1 (He [v])) as (s2 & c & E & T2).
        unfold publish, emit. rewrite E. destruct c as [r | e]; simpl.
        -- exists (evs ++ [Start ErrorHandler [v]; Done ErrorHandler (Normal r);
                          Publish APP_INIT_ERROR (Some v)]). split.
           ++ rewrite T2, T, <- !app_assoc. reflexivity.
           ++ eapply ir_reported; eauto.
        -- exists (evs ++ [Start ErrorHandler [v]; Done ErrorHandler (Throw e)]). split.
           ++ rewrite T2, T, <- !app_assoc. reflexivity.
           ++ eapply ir_report_throws; eauto.
    + simpl. exists evs. split; [exact T | eapply ir_marker_unreadable; eauto].
Qed.

Lemma initialize_trace o sigma :
  initialize_run (trace (fst (initialize K (Some o) (start sigma))))
                 (snd (initialize K (Some o) (start sigma))).
Proof.
  destruct (initialize_runs o (start sigma)) as (evs & T & R).
  simpl in T. rewrite T. exact R.
Qed.

(** ** Invariants of the events of a run *)

Lemma emit_trace_inv (P : event -> Prop) e :
  P e -> preserves (trace_inv P) (@emit St e).
Proof.
  intros He s H. unfold trace_inv in *. simpl.
  apply Forall_app. split; [exact H |]. constructor; [exact He | constructor].
Qed.

(** A site adds its two markers to the trace and nothing else. *)
Lemma step_trace_inv (P : event -> Prop) x args (m : M St value) :
  quiet m ->
  P (Start x args) -> (forall s, P (Done x (snd (m s)))) ->
  preserves (trace_inv P) (step x args m).
Proof.
  intros Hq Hs Hd s H. unfold step, emit. cbv beta iota zeta.
  set (s0 := {| ext := ext s; calls := calls s; trace := trace s ++ [Start x args] |}).
  pose proof (Hq s0) as Hq0. pose proof (Hd s0) as Hd0.
  destruct (m s0) as [s1 c]. simpl in *.
  unfold trace_inv in *. simpl. rewrite Hq0. unfold s0. simpl.
  apply Forall_app. split.
  - apply Forall_app. split; [exact H |]. constructor; [exact Hs | constructor].
  - constructor; [exact Hd0 | constructor].
Qed.

(** Every event of a run satisfies [P] if the markers of each site do, for
    the arguments it is entered with and the completions its code can have,
    and the publications do. *)
Lemma initialize_events (P : event -> Prop) o sigma :
  (forall p, destructure K (Some o) = Normal p ->
     let h := applyOverrideHandlers K (overrideHandlers p) in
     (forall q, P (Start (Handler q) (handler_args p q)) /\
                forall s, P (Done (Handler q)
                               (snd (await (handler_of h q (handler_args p q)) s)))) /\
     (forall q m, wiring_of K p q = Some m ->
                  P (Start (Wiring q) []) /\ forall s, P (Done (Wiring q) (snd (m s)))) /\
     (forall q, P (Publish (topic q) None)) /\
     (forall v, P (Start ErrorHandler [v]) /\
                (forall s, P (Done ErrorHandler (snd (await (h_initError h [v]) s)))) /\
                P (Publish APP_INIT_ERROR (Some v)))) ->
  Forall P (trace (fst (initialize K (Some o) (start sigma)))).
Proof.
  intros Hall.
  assert (Hpres : preserves (trace_inv P) (initialize K (Some o))).
  { unfold initialize. apply preserves_async.
    intros s H. unfold bind at 1, lift_completion. cbv beta iota zeta.
    destruct (destructure K (Some o)) as [p | e] eqn:Ep; [| exact H].
    destruct (Hall p eq_refl) as (Hh & Hw & Hp & He). clear Hall.
    pose proof (applyOverrideHandlers_quiet (overrideHandlers p))
      as [Q1 Q2 Q3 Q4 Q5 Q6 Q7 Q8].
    revert s H. apply preserves_try_catch.
    - unfold try_block, publish.
      apply preserves_bind;
        [apply step_trace_inv; [apply Q1 | apply (Hh PubSub) | apply (Hh PubSub)] | intros _].
      apply preserves_bind; [apply emit_trace_inv, (Hp PubSub) | intros _].
      apply preserves_bind;
        [apply step_trace_inv; [apply Q2 | apply (Hh Config) | apply (Hh Config)] | intros _].
      apply preserves_bind; [apply emit_trace_inv, (Hp Config) | intros _].
      apply preserves_bind;
        [apply step_trace_inv;
           [apply wire_logging_quiet | apply (Hw Logging _ eq_refl) ..] | intros _].
      apply preserves_bind;
        [apply step_trace_inv; [apply Q3 | apply (Hh Logging) | apply (Hh Logging)] | intros _].
      apply preserves_bind; [apply emit_trace_inv, (Hp Logging) | intros _].
      apply preserves_bind;
        [apply step_trace_inv;
           [apply wire_auth_quiet | apply (Hw Auth _ eq_refl) ..] | intros _].
      apply preserves_bind;
        [apply step_trace_inv; [apply Q4 | apply (Hh Auth) | apply (Hh Auth)] | intros _].
      apply preserves_bind; [apply emit_trace_inv, (Hp Auth) | intros _].
      apply preserves_bind;
        [apply step_trace_inv;
           [apply wire_analytics_quiet | apply (Hw Analytics _ eq_refl) ..] | intros _].
      apply preserves_bind;
        [apply step_trace_inv; [apply Q5 | apply (Hh Analytics) | apply (Hh Analytics)] | intros _].
      apply preserves_bind; [apply emit_trace_inv, (Hp Analytics) | intros _].
      apply preserves_bind;
        [apply step_trace_inv;
           [apply wire_i18n_quiet | apply (Hw I18n _ eq_refl) ..] | intros _].
      apply preserves_bind;
        [apply step_trace_inv; [apply Q6 | apply (Hh I18n) | apply (Hh I18n)] | intros _].
      apply preserves_bind; [apply emit_trace_inv, (Hp I18n) | intros _].
      apply preserves_bind;
        [apply step_trace_inv; [apply Q7 | apply (Hh Ready) | apply (Hh Ready)] | intros _].
      apply emit_trace_inv, (Hp Ready).
    - intros v. unfold catch_block, publish. destruct (He v) as (E1 & E2 & E3).
      apply preserves_bind; [apply preserves_prop |]. intros m.
      apply preserves_if; [| apply preserves_ret].
      apply preserves_bind.
      + apply step_trace_inv; [apply Q8 | exact E1 | exact E2].
      + intros _. apply emit_trace_inv, E3. }
  apply (Hpres (start sigma)). constructor.
Qed.

(** ** The trace accounts for the run *)

Lemma trace_logged e (s : state St) : trace (logged e s) = trace s ++ [e].
Proof. reflexivity. Qed.

Lemma replay_app p (s s1 s2 : state St) l1 l2 :
  replay K p s l1 s1 -> replay K p s1 l2 s2 -> replay K p s (l1 ++ l2) s2.
Proof.
  induction 1 as [s | s x args m s1' c tr s' Hc Hm _ IH | s t payload tr s' _ IH];
    intros H2; simpl.
  - exact H2.
  - apply (replay_site K p s x args m s1' c _ _ Hc Hm). apply IH, H2.
  - apply replay_publish. apply IH, H2.
Qed.

Lemma code_at_quiet p x args (m : M St value) :
  code_at K p x args = Some m -> quiet m.
Proof.
  pose proof (applyOverrideHandlers_quiet (overrideHandlers p))
    as [Q1 Q2 Q3 Q4 Q5 Q6 Q7 Q8].
  destruct x as [q | q |]; simpl; intros E.
  - destruct q; try discriminate E; injection E as <-.
    + apply wire_logging_quiet.
    + apply wire_auth_quiet.
    + apply wire_analytics_quiet.
    + apply wire_i18n_quiet.
  - injection E as <-. destruct q; simpl;
      [apply Q1 | apply Q2 | apply Q3 | apply Q4 | apply Q5 | apply Q6 | apply Q7].
  - injection E as <-. apply Q8.
Qed.

Lemma replay_trace p (s s' : state St) tr :
  replay K p s tr s' -> trace s' = trace s ++ tr.
Proof.
  induction 1 as [s | s x args m s1 c tr s' Hc Hm _ IH | s t payload tr s' _ IH].
  - rewrite app_nil_r. reflexivity.
  - rewrite IH, trace_logged.
    pose proof (code_at_quiet p x args m Hc (logged (Start x args) s)) as Hq.
    rewrite Hm in Hq. simpl in Hq. rewrite Hq. simpl. rewrite <- !app_assoc. reflexivity.
  - rewrite IH. simpl. rewrite <- app_assoc. reflexivity.
Qed.

(** A completion in an accounted trace closes a visit of its site. *)
Lemma replay_done p (s0 s_end : state St) l1 x c l2 :
  replay K p s0 (l1 ++ Done x c :: l2) s_end ->
  exists pre args s_pre m s1,
    l1 = pre ++ [Start x args] /\
    replay K p s0 pre s_pre /\
    code_at K p x args = Some m /\
    m (logged (Start x args) s_pre) = (s1, c) /\
    replay K p (logged (Done x c) s1) l2 s_end.
Proof.
  intros H. remember (l1 ++ Done x c :: l2) as tr eqn:E. revert l1 E.
  induction H as [s | s y a m s1 c' tr s' Hc Hm Hr IH | s t payload tr s' Hr IH];
    intros l1 E.
  - destruct l1; discriminate E.
  - destruct l1 as [| e1 l1]; [discriminate E |].
    injection E as <- E.
    destruct l1 as [| e2 l1].
    + injection E as -> -> ->.
      exists [], a, s, m, s1. repeat split; try assumption. constructor.
    + injection E as <- E.
      destruct (IH l1 E) as (pre & args & s_pre & m' & s1' & -> & Rp & Hc' & Hm' & Rr).
      exists (Start y a :: Done y c' :: pre), args, s_pre, m', s1'.
      split; [reflexivity |].
      split; [apply (replay_site K p s y a m s1 c' _ _ Hc Hm Rp) |].
      repeat split; assumption.
  - destruct l1 as [| e1 l1]; [discriminate E |]. injection E as <- E.
    destruct (IH l1 E) as (pre & args & s_pre & m' & s1' & -> & Rp & Hc' & Hm' & Rr).
    exists (Publish t payload :: pre), args, s_pre, m', s1'.
    split; [reflexivity |].
    split; [apply replay_publish, Rp |].
    repeat split; assumption.
Qed.

(** An entry in an accounted trace opens a visit of its site. *)
Lemma replay_start p (s0 s_end : state St) l1 x args l2 :
  replay K p s0 (l1 ++ Start x args :: l2) s_end ->
  exists s_pre m s1 c post,
    l2 = Done x c :: post /\
    replay K p s0 l1 s_pre /\
    code_at K p x args = Some m /\
    m (logged (Start x args) s_pre) = (s1, c) /\
    replay K p (logged (Done x c) s1) post s_end.
Proof.
  intros H. remember (l1 ++ Start x args :: l2) as tr eqn:E. revert l1 E.
  induction H as [s | s y a m s1 c' tr s' Hc Hm Hr IH | s t payload tr s' Hr IH];
    intros l1 E.
  - destruct l1; discriminate E.
  - destruct l1 as [| e1 l1].
    + injection E as -> -> <-.
      exists s, m, s1, c', tr. repeat split; try assumption. constructor.
    + injection E as <- E.
      destruct l1 as [| e2 l1]; [discriminate E |].
      injection E as <- E.
      destruct (IH l1 E) as (s_pre & m' & s1' & c & post & -> & Rp & Hc' & Hm' & Rr).
      exists s_pre, m', s1', c, post.
      split; [reflexivity |].
      split; [apply (replay_site K p s y a m s1 c' _ _ Hc Hm Rp) |].
      repeat split; assumption.
  - destruct l1 as [| e1 l1]; [discriminate E |]. injection E as <- E.
    destruct (IH l1 E) as (s_pre & m' & s1' & c & post & -> & Rp & Hc' & Hm' & Rr).
    exists s_pre, m', s1', c, post.
    split; [reflexivity |].
    split; [apply replay_publish, Rp |].
    repeat split; assumption.
Qed.

Lemma replay_nil p (s s' : state St) : replay K p s [] s' -> s' = s.
Proof. intros H. inversion H. reflexivity. Qed.

Lemma accounted_ret {A} p (a : A) : accounted K p (@ret St A a).
Proof. intros s. exists []. split; [symmetry; apply app_nil_r | constructor]. Qed.

Lemma accounted_lift_completion {A} p (c : completion A) :
  accounted K p (@lift_completion St A c).
Proof. intros s. exists []. split; [symmetry; apply app_nil_r | constructor]. Qed.

Lemma accounted_bind {A B} p (m : M St A) (k : A -> M St B) :
  accounted K p m -> (forall a, accounted K p (k a)) -> accounted K p (bind m k).
Proof.
  intros Hm Hk s. unfold bind. destruct (Hm s) as (e1 & T1 & R1).
  destruct (m s) as [s1 [a | v]]; simpl in T1, R1.
  - destruct (Hk a s1) as (e2 & T2 & R2).
    exists (e1 ++ e2). split.
    + rewrite T2, T1, app_assoc. reflexivity.
    + apply (replay_app p _ _ _ _ _ R1 R2).
  - exists e1. split; assumption.
Qed.

Lemma accounted_try_catch {A} p (m : M St A) (k : value -> M St A) :
  accounted K p m -> (forall v, accounted K p (k v)) -> accounted K p (try_catch m k).
Proof.
  intros Hm Hk s. unfold try_catch. destruct (Hm s) as (e1 & T1 & R1).
  destruct (m s) as [s1 [a | v]]; simpl in T1, R1.
  - exists e1. split; assumption.
  - destruct (Hk v s1) as (e2 & T2 & R2).
    exists (e1 ++ e2). split.
    + rewrite T2, T1, app_assoc. reflexivity.
    + apply (replay_app p _ _ _ _ _ R1 R2).
Qed.

Lemma accounted_async p (m : M St unit) :
  accounted K p m -> accounted K p (async m).
Proof.
  intros Hm s. unfold async. destruct (Hm s) as (e1 & T1 & R1).
  destruct (m s) as [s1 c]. exists e1. split; assumption.
Qed.

Lemma accounted_publish p t payload : accounted K p (@publish St t payload).
Proof.
  intros s. exists [Publish t payload]. split; [reflexivity |].
  apply replay_publish. constructor.
Qed.

Lemma accounted_step p x args (m : M St value) :
  code_at K p x args = Some m -> accounted K p (step x args m).
Proof.
  intros Hc s. pose proof (code_at_quiet p x args m Hc (logged (Start x args) s)) as Hq.
  unfold step.
  change (emit (Start x args) s) with (logged (Start x args) s, @Normal unit tt).
  cbv beta iota.
  destruct (m (logged (Start x args) s)) as [s1 c] eqn:Em. simpl in Hq.
  exists [Start x args; Done x c]. split.
  - simpl. rewrite Hq. simpl. rewrite <- app_assoc. reflexivity.
  - apply (replay_site K p s x args m s1 c [] _ Hc Em). constructor.
Qed.

Lemma try_block_accounted p :
  accounted K p (try_block K (applyOverrideHandlers K (overrideHandlers p)) p).
Proof.
  unfold try_block.
  repeat (apply accounted_bind; [| intros _]);
    first [apply accounted_publish | apply accounted_step; reflexivity].
Qed.

Lemma catch_block_accounted p v :
  accounted K p (catch_block (applyOverrideHandlers K (overrideHandlers p)) v).
Proof.
  unfold catch_block, prop.
  apply accounted_bind; [apply accounted_lift_completion |]. intros m.
  destruct (negb (truthy m)); [| apply accounted_ret].
  apply accounted_bind; [apply accounted_step; reflexivity |].
  intros _. apply accounted_publish.
Qed.

(** The trace of a run accounts for the run. *)
Lemma initialize_replay o sigma p :
  destructure K (Some o) = Normal p ->
  replay K p (start sigma)
         (trace (fst (initialize K (Some o) (start sigma))))
         (fst (initialize K (Some o) (start sigma))).
Proof.
  intros Ep.
  assert (H : accounted K p (initialize K (Some o))).
  { unfold initialize. apply accounted_async. rewrite Ep.
    intros s. unfold bind at 1, lift_completion. cbv beta iota zeta.
    apply accounted_try_catch.
    - apply try_block_accounted.
    - intros v. apply catch_block_accounted. }
  destruct (H (start sigma)) as (evs & T & R). simpl in T. rewrite T. exact R.
Qed.

(** A completion recorded in an accounted trace is that of a visit of its
    site: the code of the site was run in the state reached then. *)
Lemma replay_visited p (s0 s_end : state St) l1 x c l2 :
  replay K p s0 (l1 ++ Done x c :: l2) s_end ->
  exists pre args s m s',
    l1 = pre ++ [Start x args] /\
    visited K p s0 s_end x args s c s' /\
    code_at K p x args = Some m /\ m s = (s', c) /\
    trace s = trace s0 ++ l1 /\
    replay K p (logged (Done x c) s') l2 s_end.
Proof.
  intros R. pose proof (replay_trace _ _ _ _ R) as T.
  destruct (replay_done _ _ _ _ _ _ _ R)
    as (pre & args & s_pre & m & s1 & -> & Rp & Hc & Hm & Rr).
  exists pre, args, (logged (Start x args) s_pre), m, s1.
  split; [reflexivity |]. split; [| split; [exact Hc | split; [exact Hm | split]]].
  - exists pre, l2, s_pre, m. rewrite T, <- !app_assoc.
    repeat split; trivial.
  - rewrite trace_logged, (replay_trace _ _ _ _ Rp), <- app_assoc. reflexivity.
  - exact Rr.
Qed.

(** The arguments recorded at the entry of a handler are those that the
    bindings give it. *)
Lemma initialize_handler_args o sigma p q args :
  destructure K (Some o) = Normal p ->
  In (Start (Handler q) args) (trace (fst (initialize K (Some o) (start sigma)))) ->
  args = handler_args p q.
Proof.
  intros Ep Hin.
  assert (HF : Forall (fun e => forall q' a, e = Start (Handler q') a ->
                                             a = handler_args p q')
                      (trace (fst (initialize K (Some o) (start sigma))))).
  { apply initialize_events. intros p' Ep' h. rewrite Ep in Ep'. injection Ep' as <-.
    split; [| split; [| split]].
    - intros q'. split.
      + intros q'' a E. injection E as <- <-. reflexivity.
      + intros s q'' a E. discriminate E.
    - intros q' m _. split; [intros q'' a E | intros s q'' a E]; discriminate E.
    - intros q' q'' a E. discriminate E.
    - intros v. split; [intros q'' a E; discriminate E |].
      split; [intros s q'' a E | intros q'' a E]; discriminate E. }
  rewrite Forall_forall in HF. apply (HF _ Hin q args eq_refl).
Qed.

(** The visit that a thrown completion of the trace closes. *)
Lemma initialize_thrown_visit o sigma p pre x v tail :
  destructure K (Some o) = Normal p ->
  trace (fst (initialize K (Some o) (start sigma))) = pre ++ Done x (Throw v) :: tail ->
  exists args s s',
    visited K p (start sigma) (fst (initialize K (Some o) (start sigma)))
            x args s (Throw v) s' /\
    replay K p (logged (Done x (Throw v)) s') tail
           (fst (initialize K (Some o) (start sigma))).
Proof.
  intros Ep E. pose proof (initialize_replay o sigma p Ep) as R.
  remember (fst (initialize K (Some o) (start sigma))) as s_end eqn:Es. clear Es.
  rewrite E in R.
  destruct (replay_visited _ _ _ _ _ _ _ R) as (pre' & args & s & m & s' & _ & Hv & _ & _ & _ & Rr).
  exists args, s, s'. split; assumption.
Qed.

(** What the catch clause does after a visit, read off the rest of the
    trace. *)
Lemma replay_error_handler p (s s_end : state St) v c rest :
  replay K p s (Start ErrorHandler [v] :: Done ErrorHandler c :: rest) s_end ->
  exists s'',
    await (h_initError (applyOverrideHandlers K (overrideHandlers p)) [v])
          (logged (Start ErrorHandler [v]) s) = (s'', c) /\
    replay K p (logged (Done ErrorHandler c) s'') rest s_end.
Proof.
  intros R. inversion R as [| s0 x args m s1 c0 tr s0' Hc Hm Rr |]. subst.
  simpl in Hc. injection Hc as <-. exists s1. split; assumption.
Qed.

Lemma replay_one_publication p (s s_end : state St) t payload :
  replay K p s [Publish t payload] s_end -> s_end = logged (Publish t payload) s.
Proof.
  intros R. inversion R as [| | s0 t0 pl tr s0' Rr]. subst.
  apply replay_nil in Rr. exact Rr.
Qed.

(** An entry recorded in the trace of a run opens a visit of its site. *)
Lemma initialize_start_visit o sigma p x args :
  destructure K (Some o) = Normal p ->
  In (Start x args) (trace (fst (initialize K (Some o) (start sigma)))) ->
  exists s c s',
    visited K p (start sigma) (fst (initialize K (Some o) (start sigma)))
            x args s c s'.
Proof.
  intros Ep Hin. pose proof (initialize_replay o sigma p Ep) as R.
  destruct (in_split _ _ Hin) as (l1 & l2 & E).
  remember (fst (initialize K (Some o) (start sigma))) as s_end eqn:Es. clear Es.
  rewrite E in R.
  destruct (replay_start _ _ _ _ _ _ _ R)
    as (s_pre & m & s1 & c & post & -> & Rp & Hc & Hm & Rr).
  exists (logged (Start x args) s_pre), c, s1.
  exists l1, post, s_pre, m. repeat split; trivial.
Qed.

(** ** The sequencer *)

(** C1: for every options record, when no phase handler and no wiring block
    throws, [initialize] publishes APP.PUBSUB_INITIALIZED,
    APP.CONFIG_INITIALIZED, APP.LOGGING_INITIALIZED, APP.AUTH_INITIALIZED,
    APP.ANALYTICS_INITIALIZED, APP.I18N_INITIALIZED and APP.READY in this
    order, each once and nothing else (so APP.INIT_ERROR is not published),
    and the promise it returns is fulfilled. *)
Theorem initialize_publishes_in_order (o : options St) (sigma : St) :
  let run := initialize K (Some o) (start sigma) in
  (forall x v, x <> ErrorHandler -> ~ In (Done x (Throw v)) (trace (fst run))) ->
  publications (trace (fst run)) =
    [(APP_PUBSUB_INITIALIZED, None); (APP_CONFIG_INITIALIZED, None);
     (APP_LOGGING_INITIALIZED, None); (APP_AUTH_INITIALIZED, None);
     (APP_ANALYTICS_INITIALIZED, None); (APP_I18N_INITIALIZED, None);
     (APP_READY, None)] /\
  snd run = Normal (VPromise true VUndefined).
Proof.
  intros run Hno. pose proof (initialize_trace o sigma) as R. fold run in R.
  assert (Hthrown : forall evs tail v,
            trace (fst run) = evs ++ tail -> run_of script evs (Throw v) -> False).
  { intros evs tail v E Rv.
    destruct (run_of_throw_last _ _ _ Rv) as (pre & x & Epre & Hx).
    apply (Hno x v).
    - intros ->. apply script_no_error_handler, Hx.
    - rewrite E, Epre. apply in_or_app. left. apply in_or_app. right. left. reflexivity. }
  remember (trace (fst run)) as tr eqn:Etr. remember (snd run) as r eqn:Er.
  destruct R as [evs R | evs v e R _ | evs v m R _ _
                 | evs v m r R _ _ | evs v m e R _ _].
  - split; [| reflexivity]. apply (run_of_normal_publications _ _ R).
  - exfalso. apply (Hthrown evs [] v); [rewrite app_nil_r; reflexivity | exact R].
  - exfalso. apply (Hthrown evs [] v); [rewrite app_nil_r; reflexivity | exact R].
  - exfalso. eapply (Hthrown evs _ v); [reflexivity | exact R].
  - exfalso. eapply (Hthrown evs _ v); [reflexivity | exact R].
Qed.

(** C2: in every run of [initialize] and for every phase P, the completion
    topic of P is published if and only if the handler of P in the table
    (default or override) was called, with the arguments of the phase and in
    the state the run had reached, and resolved; a phase whose wiring or
    handler throws gets no completion event; when the handler of the next
    phase starts, the completion topic of P has been published; and the
    markers of the trace are the visits of the run, nothing else having
    happened. *)
Theorem completion_iff_handler_resolved
    (argument : option (options St)) (sigma : St) (q : phase) :
  let run := initialize K argument (start sigma) in
  let tr := trace (fst run) in
  (published (topic q) tr <->
   exists p s r s',
     destructure K argument = Normal p /\
     visited K p (start sigma) (fst run) (Handler q) (handler_args p q) s (Normal r) s' /\
     await (handler_of (applyOverrideHandlers K (overrideHandlers p)) q
                       (handler_args p q)) s = (s', Normal r)) /\
  (forall x v, phase_of x = Some q -> In (Done x (Throw v)) tr ->
               ~ published (topic q) tr) /\
  (forall q' args l1 l2,
      next_phase q = Some q' -> tr = l1 ++ Start (Handler q') args :: l2 ->
      In (Publish (topic q) None) l1) /\
  (forall p, destructure K argument = Normal p ->
             replay K p (start sigma) tr (fst run)).
Proof.
  destruct argument as [o |]; intros run tr.
  2: { split; [| split; [| split]].
       - split; [intros [y H]; destruct H |].
         intros (p0 & s & r & s' & E & _). discriminate E.
       - intros x v _ H. destruct H.
       - intros q' args l1 l2 _ E. destruct l1; discriminate E.
       - intros p0 E. discriminate E. }
  pose proof (initialize_trace o sigma) as R. fold run in R. fold tr in R.
  destruct (initialize_run_split _ _ R) as (evs & c & tail & E & Rs & Htail).
  assert (Hold : published (topic q) tr <->
                 exists r, In (Done (Handler q) (Normal r)) tr).
  { rewrite E. split.
    + intros [payload H]. apply in_app_or in H. destruct H as [H | H].
      * destruct (proj1 (run_of_published_iff _ _ _ q Rs)) as [r' Hr'].
        { exists payload. exact H. }
        exists r'. apply in_or_app. left. exact Hr'.
      * exfalso. apply (Htail _ H). simpl. apply topic_not_error.
    + intros [r' H]. apply in_app_or in H. destruct H as [H | H].
      * destruct (proj2 (run_of_published_iff _ _ _ q Rs)) as [payload Hp].
        { exists r'. exact H. }
        exists payload. apply in_or_app. left. exact Hp.
      * exfalso. apply (Htail _ H). simpl. discriminate. }
  assert (Hp : exists p, destructure K (Some o) = Normal p)
    by (eexists; reflexivity).
  destruct Hp as [p Ep].
  pose proof (initialize_replay o sigma p Ep) as Rp. fold run in Rp. fold tr in Rp.
  split; [| split; [| split]].
  - split.
    + intros Hpub. apply Hold in Hpub. destruct Hpub as [r Hr].
      destruct (in_split _ _ Hr) as (l1 & l2 & Etr).
      assert (Hstart : forall pre args, l1 = pre ++ [Start (Handler q) args] ->
                                        args = handler_args p q).
      { intros pre args El. apply (initialize_handler_args o sigma p q args Ep).
        fold run. fold tr. rewrite Etr, El. apply in_or_app. left.
        apply in_or_app. right. left. reflexivity. }
      rewrite Etr in Rp.
      destruct (replay_visited _ _ _ _ _ _ _ Rp)
        as (pre & args & s & m & s' & El & Hv & Hc & Hm & _ & _).
      rewrite (Hstart pre args El) in Hv, Hc.
      simpl in Hc. injection Hc as <-.
      exists p, s, r, s'. repeat split; assumption.
    + intros (p0 & s & r & s' & _ & Hv & _). apply Hold. exists r.
      destruct Hv as (pre & post & s_pre & m & Et & _). simpl in Et.
      unfold tr. rewrite Et. apply in_or_app. right. right. left. reflexivity.
  - intros x v Hp Hx. rewrite E in Hx |- *.
    assert (Hxe : x <> ErrorHandler) by (intros ->; discriminate Hp).
    apply in_app_or in Hx. destruct Hx as [Hx | Hx].
    + pose proof (run_of_thrown _ _ _ _ _ Rs Hx) as Ec. subst c.
      apply (thrown_stops_topics evs tail x v q q Rs Htail Hx Hp). lia.
    + exfalso. apply (Htail _ Hx). exact Hxe.
  - intros q' args l1 l2 Hq Esplit. rewrite E in Esplit.
    assert (Hp : In (Handler q) script /\ rank (Handler q) < rank (Handler q')).
    { destruct q; simpl in Hq; try discriminate Hq; injection Hq as <-;
        simpl; split; try lia; tauto. }
    destruct Hp as [Hp Hlt].
    apply app_eq_app in Esplit. destruct Esplit as (l & [[E1 E2] | [E1 E2]]).
    + destruct l as [| e l].
      * simpl in E2. exfalso. apply (Htail (Start (Handler q') args)).
        -- rewrite <- E2. left. reflexivity.
        -- discriminate.
      * injection E2 as <- _.
        apply (run_of_start_after _ _ _ _ _ _ _ _ Rs script_ascending E1 Hp Hlt).
    + exfalso. apply (Htail (Start (Handler q') args)).
      * rewrite E2. apply in_or_app. right. left. reflexivity.
      * discriminate.
  - intros p0 Ep0. rewrite Ep in Ep0. injection Ep0 as <-. exact Rp.
Qed.

(** C3: if a phase handler or a wiring block throws a value whose
    [isRedirecting] property is truthy, [initialize] stops there: the throw
    is the last event of the run, the completion topic of the failing phase
    and of every later phase (APP.READY included) is not published, the
    error handler is not invoked, APP.INIT_ERROR is not published, and the
    returned promise is fulfilled. The state in which the run ends is the
    one in which the code that threw left the collaborators and the list of
    calls: nothing is called, changed or logged after the throw. *)
Theorem redirect_stops_silently
    (argument : option (options St)) (sigma : St) (x : site) (v m : value) :
  let run := initialize K argument (start sigma) in
  x <> ErrorHandler ->
  In (Done x (Throw v)) (trace (fst run)) ->
  get v "isRedirecting" = Normal m -> truthy m = true ->
  (exists pre, trace (fst run) = pre ++ [Done x (Throw v)]) /\
  (forall p q, phase_of x = Some p -> phase_index p <= phase_index q ->
               ~ published (topic q) (trace (fst run))) /\
  (forall args, ~ In (Start ErrorHandler args) (trace (fst run))) /\
  ~ published APP_INIT_ERROR (trace (fst run)) /\
  snd run = Normal (VPromise true VUndefined) /\
  (exists p args s s',
      destructure K argument = Normal p /\
      visited K p (start sigma) (fst run) x args s (Throw v) s' /\
      fst run = logged (Done x (Throw v)) s').
Proof.
  destruct argument as [o |]; intros run Hx Hin Em Et; [| destruct Hin].
  pose proof (initialize_trace o sigma) as R. fold run in R.
  destruct (initialize_run_thrown _ _ x v R Hx Hin) as (pre & tail & E & Rs & Hc).
  unfold caught in Hc. rewrite Em, Et in Hc. destruct Hc as [-> Hr].
  rewrite app_nil_r in E.
  assert (Hstate : exists p args s s',
             destructure K (Some o) = Normal p /\
             visited K p (start sigma) (fst run) x args s (Throw v) s' /\
             fst run = logged (Done x (Throw v)) s').
  { assert (Hp : exists p, destructure K (Some o) = Normal p)
      by (eexists; reflexivity).
    destruct Hp as [p Ep].
    destruct (initialize_thrown_visit o sigma p pre x v [] Ep E)
      as (args & s & s' & Hv & Rr).
    exists p, args, s, s'. split; [exact Ep |]. split; [exact Hv |].
    apply (replay_nil _ _ _ Rr). }
  rewrite E.
  assert (Hlast : In (Done x (Throw v)) (pre ++ [Done x (Throw v)]))
    by (apply in_or_app; right; left; reflexivity).
  split; [exists pre; reflexivity |]. split; [| split; [| split; [| split]]].
  - intros p q Hp Hle.
    pose proof (thrown_stops_topics _ [] x v p q Rs (fun e H => match H with end)
                  Hlast Hp Hle) as H.
    rewrite app_nil_r in H. exact H.
  - intros args H. apply (run_of_phase_event _ _ _ Rs H). reflexivity.
  - intros [payload H]. apply (run_of_phase_event _ _ _ Rs H). reflexivity.
  - exact Hr.
  - exact Hstate.
Qed.


(** C5, as the code has it: for every options record, when no phase handler
    and no wiring block throws [null] or [undefined] and the error handler
    (default or override) does not throw, the promise returned by
    [initialize] is fulfilled, whatever was thrown. *)
Theorem initialize_fulfilled_unless_catch_throws (o : options St) (sigma : St) :
  let run := initialize K (Some o) (start sigma) in
  (forall x v, x <> ErrorHandler -> In (Done x (Throw v)) (trace (fst run)) ->
               v <> VUndefined /\ v <> VNull) ->
  (forall e, ~ In (Done ErrorHandler (Throw e)) (trace (fst run))) ->
  snd run = Normal (VPromise true VUndefined).
Proof.
  intros run Hv He.
  pose proof (initialize_trace o sigma) as R. fold run in R.
  remember (trace (fst run)) as tr eqn:Etr. remember (snd run) as r eqn:Er.
  destruct R as [evs R | evs v e R Em | evs v m R _ _
                 | evs v m r R _ _ | evs v m e R _ _]; try reflexivity.
  - exfalso. destruct (run_of_throw_last _ _ _ R) as (pre & x & -> & Hx).
    destruct (Hv x v) as [Hu Hn].
    + intros ->. apply script_no_error_handler, Hx.
    + apply in_or_app. right. left. reflexivity.
    + destruct v; try discriminate Em; [apply Hu | apply Hn]; reflexivity.
  - exfalso. apply (He e). apply in_or_app. right. right. left. reflexivity.
Qed.

(** ** The default handlers *)

(** C7: the default analytics handler reads the authenticated user and makes
    exactly one identification call: [identifyAuthenticatedUser] with the
    user's [userId] when the user and that identifier are truthy,
    [identifyAnonymousUser] in every other case. *)
Theorem analytics_identifies_once (args : list value) (s : state St) :
  let user := authenticated_user_of K (ext s) in
  let identified userId :=
    truthy user = true /\ get user "userId" = Normal userId /\ truthy userId = true in
  exists c,
    calls (fst (analytics K args s)) = calls s ++ [c] /\
    ((exists userId, identified userId /\ c = (IdentifyAuthenticatedUser, [userId])) \/
     ((forall userId, ~ identified userId) /\ c = (IdentifyAnonymousUser, []))).
Proof.
  intros user identified.
  unfold analytics, async, bind, getAuthenticatedUser, read, prop, lift_completion,
    identifyAuthenticatedUser, identifyAnonymousUser, call, ret.
  cbv beta iota. fold user. unfold identified. clear identified.
  destruct (truthy user) eqn:Eu.
  - assert (Eg : get user "userId" = Normal (match user with
                                              | VObj props => lookup "userId" props
                                              | _ => VUndefined
                                              end))
      by (destruct user; try discriminate Eu; reflexivity).
    set (uid := match user with
                | VObj props => lookup "userId" props
                | _ => VUndefined
                end) in *.
    rewrite Eg. cbv beta iota.
    destruct (truthy uid) eqn:Ei.
    + destruct (extern K IdentifyAuthenticatedUser _ (ext s)) as [sigma [r | v]]; simpl;
        (eexists; split; [reflexivity |]; left; eexists;
         split; [split; [reflexivity | split; [reflexivity | exact Ei]] | reflexivity]).
    + destruct (extern K IdentifyAnonymousUser _ (ext s)) as [sigma [r | v]]; simpl;
        (eexists; split; [reflexivity |]; right; split; [| reflexivity];
         intros userId (_ & H1 & H2); injection H1 as <-; congruence).
  - cbv beta iota. rewrite Eu.
    destruct (extern K IdentifyAnonymousUser _ (ext s)) as [sigma [r | v]]; simpl;
      (eexists; split; [reflexivity |]; right; split; [| reflexivity];
       intros userId (H0 & _); discriminate H0).
Qed.

(** C8, as the code has it: the default error handler forwards the error to
    [logError]; the promise it returns is fulfilled whenever the call to
    [logError] returns, whatever it returns (a rejected promise included),
    and is rejected with the value thrown when that call throws. *)
Theorem initError_forwards_to_logError (args : list value) (s : state St) :
  let error := arg 0 args in
  let logged := extern K LogError [error] (ext s) in
  fst (initError K args s) =
    {| ext := fst logged; calls := calls s ++ [(LogError, [error])]; trace := trace s |} /\
  (forall r, snd logged = Normal r ->
             snd (initError K args s) = Normal (VPromise true VUndefined)) /\
  (forall v, snd logged = Throw v ->
             snd (initError K args s) = Normal (VPromise false v)).
Proof.
  intros error logged.
  unfold initError, async, bind, logError, call, ret. fold error. fold logged.
  destruct logged as [sigma [r | v]]; simpl.
  - split; [reflexivity |]. split; [reflexivity |]. intros w H. discriminate H.
  - split; [reflexivity |]. split; [intros r H; discriminate H |].
    intros w H. injection H as ->. reflexivity.
Qed.

(** ** The wiring of the auth collaborator *)







(** ** The argument of initialize *)

(** C10: called without argument, [initialize] returns a promise rejected
    with the TypeError of the destructuring and changes nothing: no handler
    is invoked, no import is called and no topic is published; called with
    an empty record it binds the defaults, [false] for both user options
    and no handler override, so that the table is the default one. *)
Theorem initialize_argument (s : state St) :
  (exists message,
      initialize K None s = (s, Normal (VPromise false (TypeError message)))) /\
  destructure K (Some empty_options) =
    Normal {| loggingService := NewRelicLoggingService K;
              analyticsService := SegmentAnalyticsService K;
              requireUser := VBool false;
              hydrateUser := VBool false;
              messages := VUndefined;
              overrideHandlers := no_overrides |} /\
  applyOverrideHandlers K no_overrides =
    {| h_pubSub := noOp; h_config := noOp; h_logging := noOp;
       h_auth := auth K; h_analytics := analytics K;
       h_i18n := noOp; h_ready := noOp; h_initError := initError K |}.
Proof.
  split; [| split].
  - unfold initialize, async, bind, lift_completion. simpl destructure.
    eexists. reflexivity.
  - unfold destructure, empty_options, default_to. simpl. reflexivity.
  - unfold applyOverrideHandlers, no_overrides, spread. simpl. reflexivity.
Qed.

End Runs.

(** ** Statements that agree on every state *)

Section Agreement.

Context {St : Type}.

Lemma bind_same {A B} (m m' : M St A) (k k' : A -> M St B) :
  same m m' -> (forall a, same (k a) (k' a)) -> same (bind m k) (bind m' k').
Proof.
  intros Hm Hk s. unfold bind. rewrite Hm.
  destruct (m' s) as [s' [a | v]]; [apply Hk | reflexivity].
Qed.

Lemma try_catch_same {A} (m m' : M St A) (k k' : value -> M St A) :
  same m m' -> (forall v, same (k v) (k' v)) ->
  same (try_catch m k) (try_catch m' k').
Proof.
  intros Hm Hk s. unfold try_catch. rewrite Hm.
  destruct (m' s) as [s' [a | v]]; [reflexivity | apply Hk].
Qed.

Lemma await_same (m m' : M St value) : same m m' -> same (await m) (await m').
Proof.
  intros Hm. unfold await. apply bind_same; [exact Hm |]. intros r s. reflexivity.
Qed.

Lemma async_same (m m' : M St unit) : same m m' -> same (async m) (async m').
Proof. intros Hm s. unfold async. rewrite Hm. reflexivity. Qed.

Lemma step_same x args (m m' : M St value) :
  same m m' -> same (step x args m) (step x args m').
Proof. intros Hm s. unfold step. simpl. rewrite Hm. reflexivity. Qed.

Lemma await_call (K : collaborators St) f a s :
  await (call K f a) s =
    ({| ext := fst (extern K f a (ext s));
        calls := calls s ++ [(f, a)];
        trace := trace s |},
     awaited (snd (extern K f a (ext s)))).
Proof.
  unfold await, bind, call, lift_completion, awaited.
  destruct (extern K f a (ext s)) as [sigma [r | v]]; reflexivity.
Qed.

Lemma bind_at {A B} (m m' : M St A) (k : A -> M St B) s :
  m s = m' s -> bind m k s = bind m' k s.
Proof. intros E. unfold bind. rewrite E. reflexivity. Qed.

Lemma bind_read {B} f (k : value -> M St B) s :
  bind (read f) k s = k (f (ext s)) s.
Proof. reflexivity. Qed.

Lemma bind_prop {B} v key r (k : value -> M St B) s :
  get v key = Normal r -> bind (prop v key) k s = k r s.
Proof. intros E. unfold bind, prop, lift_completion. rewrite E. reflexivity. Qed.

End Agreement.

(** ** Hydration is not awaited *)

Section Hydration.

Context {St : Type} (K : collaborators St) (fulfilled : bool) (x : value).

Abbreviation K' := (with_hydration_promise fulfilled x K).

Lemma auth_same_hydration args : same (auth K' args) (auth K args).
Proof.
  unfold auth. apply async_same, bind_same.
  - intros s. reflexivity.
  - intros _. apply bind_same; [intros s; reflexivity |].
    intros [|]; [| intros s; reflexivity].
    intros s. unfold bind, hydrateAuthenticatedUser, call, ret. simpl.
    destruct (extern K HydrateAuthenticatedUser [] (ext s)) as [sigma [r | v]];
      reflexivity.
Qed.

Lemma applyOverrideHandlers_same ov :
  same_handlers (applyOverrideHandlers K' ov) (applyOverrideHandlers K ov).
Proof.
  split; intros args; simpl;
    match goal with |- same (spread _ ?o _) _ => destruct o end; simpl;
    try (intros s; reflexivity).
  apply auth_same_hydration.
Qed.

Lemma try_block_same (h h' : handlers St) p :
  same_handlers h h' -> same (try_block K' h p) (try_block K h' p).
Proof.
  intros [H1 H2 H3 H4 H5 H6 H7 _]. unfold try_block.
  repeat (apply bind_same;
          [first [apply step_same, await_same; trivial; fail
                 | intros s; reflexivity]
          | intros _]).
  intros s. reflexivity.
Qed.

Lemma catch_block_same (h h' : handlers St) v :
  same_handlers h h' -> same (catch_block h v) (catch_block h' v).
Proof.
  intros [_ _ _ _ _ _ _ H8]. unfold catch_block.
  apply bind_same; [intros s; reflexivity |]. intros m.
  destruct (negb (truthy m)); [| intros s; reflexivity].
  apply bind_same; [| intros _ s; reflexivity].
  apply step_same, await_same, H8.
Qed.

Lemma initialize_same_hydration argument :
  same (initialize K' argument) (initialize K argument).
Proof.
  unfold initialize. apply async_same, bind_same.
  - intros s. reflexivity.
  - intros p. pose proof (applyOverrideHandlers_same (overrideHandlers p)) as H.
    apply try_catch_same.
    + apply try_block_same, H.
    + intros v. apply catch_block_same, H.
Qed.

End Hydration.

(** C6: the default auth handler first awaits [ensureAuthenticatedUser] with
    the href of the current location when [requireUser] is truthy, and
    [fetchAuthenticatedUser] otherwise, and is rejected with whatever that
    throws; then, when [hydrateUser] is truthy and [getAuthenticatedUser()]
    is not [null], it calls [hydrateAuthenticatedUser] and is fulfilled
    whatever that call returns, a rejected promise included; and no run of
    [initialize] depends on how the promise of the hydration settles: state,
    calls, trace with its publications, and returned promise are the same. *)
Theorem auth_awaits_session_not_hydration {St : Type} (K : collaborators St)
    (requireUser hydrateUser : value) (s : state St) (f : fn) (a : list value) :
  let result := auth K [requireUser; hydrateUser] s in
  let session := extern K f a (ext s) in
  let hydrates :=
    truthy hydrateUser && negb (is_null (authenticated_user_of K (fst session))) in
  let after_session :=
    {| ext := fst session; calls := calls s ++ [(f, a)]; trace := trace s |} in
  (if truthy requireUser
   then exists href,
       get (location_of K (ext s)) "href" = Normal href /\
       (f, a) = (EnsureAuthenticatedUser, [href])
   else (f, a) = (FetchAuthenticatedUser, [])) ->
  (forall v, awaited (snd session) = Throw v ->
             result = (after_session, Normal (VPromise false v))) /\
  (forall r, awaited (snd session) = Normal r -> hydrates = false ->
             result = (after_session, Normal (VPromise true VUndefined))) /\
  (forall r sigma promise,
      awaited (snd session) = Normal r -> hydrates = true ->
      extern K HydrateAuthenticatedUser [] (fst session) = (sigma, Normal promise) ->
      result = ({| ext := sigma;
                   calls := calls s ++ [(f, a); (HydrateAuthenticatedUser, [])];
                   trace := trace s |},
                Normal (VPromise true VUndefined))) /\
  (forall fulfilled x argument s0,
      initialize (with_hydration_promise fulfilled x K) argument s0 =
      initialize K argument s0).
Proof.
  intros result session hydrates after_session Hop.
  assert (E : result =
    async (bind (await (call K f a))
                (fun _ => bind (if truthy hydrateUser
                                then bind (getAuthenticatedUser K)
                                          (fun user => ret (negb (is_null user)))
                                else ret false)
                               (fun cond => if cond
                                            then bind (hydrateAuthenticatedUser K)
                                                      (fun _ => ret tt)
                                            else ret tt))) s).
  { unfold result, auth, async. cbv zeta. cbn [arg nth].
    rewrite (bind_at (if truthy requireUser then _ else _) (await (call K f a)));
      [reflexivity |].
    destruct (truthy requireUser).
    - destruct Hop as (href & Hh & Hfa). injection Hfa as -> ->.
      unfold global_location. rewrite bind_read, (bind_prop _ _ _ _ _ Hh).
      reflexivity.
    - injection Hop as -> ->. reflexivity. }
  unfold async, bind at 1 in E. rewrite await_call in E.
  fold session in E. fold after_session in E. rewrite E. clear E.
  assert (Ecalls : calls after_session ++ [(HydrateAuthenticatedUser, [])] =
                   calls s ++ [(f, a); (HydrateAuthenticatedUser, [])])
    by (unfold after_session; simpl; rewrite <- app_assoc; reflexivity).
  repeat split.
  - intros v Hv. rewrite Hv. reflexivity.
  - intros r Hr Hh. rewrite Hr. unfold hydrates in Hh.
    unfold bind, getAuthenticatedUser, read, ret.
    destruct (truthy hydrateUser); simpl in Hh |- *.
    + change (ext after_session) with (fst session). rewrite Hh. reflexivity.
    + reflexivity.
  - intros r sigma promise Hr Hh Hp. rewrite Hr. unfold hydrates in Hh.
    apply andb_prop in Hh. destruct Hh as [Hh1 Hh2].
    unfold bind, getAuthenticatedUser, read, ret, hydrateAuthenticatedUser, call.
    rewrite Hh1. cbv beta iota.
    change (ext after_session) with (fst session). rewrite Hh2. cbv beta iota.
    change (ext after_session) with (fst session). rewrite Hp, Ecalls.
    reflexivity.
  - intros fulfilled x argument s0. apply initialize_same_hydration.
Qed.

(** * Concrete runs *)

Section ConcreteRuns.

Import Scenario.

(** The runs examined. *)
Abbreviation default_run :=
  (initialize session (Some empty_options) (start VNull)).
Abbreviation redirected_run :=
  (initialize signed_out (Some require_and_hydrate) (start VNull)).
Abbreviation failed_run :=
  (initialize session (Some (with_handlers analytics_fails)) (start VNull)).
Abbreviation undefined_run :=
  (initialize session (Some (with_handlers pubSub_rejects_with_undefined)) (start VNull)).
Abbreviation unreported_run :=
  (initialize session (Some (with_handlers initError_throws)) (start VNull)).

(** With a signed-in session and no option, nothing throws and the seven
    topics are published. *)
Lemma initialize_publishes_in_order_witness :
  (forall x v, x <> ErrorHandler -> ~ In (Done x (Throw v)) (trace (fst default_run))) /\
  publications (trace (fst default_run)) =
    [(APP_PUBSUB_INITIALIZED, None); (APP_CONFIG_INITIALIZED, None);
     (APP_LOGGING_INITIALIZED, None); (APP_AUTH_INITIALIZED, None);
     (APP_ANALYTICS_INITIALIZED, None); (APP_I18N_INITIALIZED, None);
     (APP_READY, None)] /\
  snd default_run = Normal (VPromise true VUndefined).
Proof.
  assert (H : forall x v, x <> ErrorHandler ->
                          ~ In (Done x (Throw v)) (trace (fst default_run))).
  { intros x v _ H. vm_compute in H.
    repeat (destruct H as [H | H]; [discriminate H |]). contradiction. }
  split; [exact H |].
  apply (initialize_publishes_in_order session empty_options VNull H).
Defined.

(** Without a session and with [requireAuthenticatedUser], the auth handler
    is rejected with the redirect error and the run stops there. *)
Lemma redirect_stops_silently_witness :
  In (Done (Handler Auth) (Throw redirect_error)) (trace (fst redirected_run)) /\
  (exists pre,
      trace (fst redirected_run) = pre ++ [Done (Handler Auth) (Throw redirect_error)]) /\
  (forall p q, phase_of (Handler Auth) = Some p -> phase_index p <= phase_index q ->
               ~ published (topic q) (trace (fst redirected_run))) /\
  (forall args, ~ In (Start ErrorHandler args) (trace (fst redirected_run))) /\
  ~ published APP_INIT_ERROR (trace (fst redirected_run)) /\
  snd redirected_run = Normal (VPromise true VUndefined) /\
  (exists p args s s',
      destructure signed_out (Some require_and_hydrate) = Normal p /\
      visited signed_out p (start VNull) (fst redirected_run)
              (Handler Auth) args s (Throw redirect_error) s' /\
      fst redirected_run = logged (Done (Handler Auth) (Throw redirect_error)) s').
Proof.
  assert (H : In (Done (Handler Auth) (Throw redirect_error))
                 (trace (fst redirected_run))).
  { vm_compute. do 14 right. left. reflexivity. }
  split; [exact H |].
  apply (redirect_stops_silently signed_out (Some require_and_hydrate) VNull
           (Handler Auth) redirect_error (VBool true)).
  - discriminate.
  - exact H.
  - reflexivity.
  - reflexivity.
Defined.


(** The same run: an object was thrown and the default error handler
    resolved, so the promise of [initialize] is fulfilled. *)
Lemma initialize_fulfilled_unless_catch_throws_witness :
  (forall x v, x <> ErrorHandler -> In (Done x (Throw v)) (trace (fst failed_run)) ->
               v <> VUndefined /\ v <> VNull) /\
  (forall e, ~ In (Done ErrorHandler (Throw e)) (trace (fst failed_run))) /\
  snd failed_run = Normal (VPromise true VUndefined).
Proof.
  assert (H1 : forall x v, x <> ErrorHandler ->
                 In (Done x (Throw v)) (trace (fst failed_run)) ->
                 v <> VUndefined /\ v <> VNull).
  { intros x v _ H. vm_compute in H.
    repeat (destruct H as [H | H];
            [first [discriminate H | injection H as _ <-; split; discriminate] |]).
    contradiction. }
  assert (H2 : forall e, ~ In (Done ErrorHandler (Throw e)) (trace (fst failed_run))).
  { intros e H. vm_compute in H.
    repeat (destruct H as [H | H]; [discriminate H |]). contradiction. }
  split; [exact H1 |]. split; [exact H2 |].
  apply (initialize_fulfilled_unless_catch_throws session
           (with_handlers analytics_fails) VNull H1 H2).
Defined.

(** Hydration is requested for the fetched user; its promise, here a
    rejected one, changes nothing. *)
Lemma auth_awaits_session_not_hydration_witness :
  auth session [VBool false; VBool true] (start VNull) =
    ({| ext := user_record;
        calls := [(FetchAuthenticatedUser, []); (HydrateAuthenticatedUser, [])];
        trace := [] |},
     Normal (VPromise true VUndefined)) /\
  initialize (with_hydration_promise false (VStr "network error") session)
             (Some require_and_hydrate) (start VNull) =
  initialize session (Some require_and_hydrate) (start VNull).
Proof.
  destruct (auth_awaits_session_not_hydration session (VBool false) (VBool true)
              (start VNull) FetchAuthenticatedUser [] eq_refl)
    as (_ & _ & H3 & H4).
  split.
  - apply (H3 VUndefined user_record resolved); reflexivity.
  - apply H4.
Defined.

(** ** Where the code departs from the specification *)


(** Against C5: the promise of [initialize] is rejected when a handler is
    rejected with [undefined] (reading [error.isRedirecting] throws in the
    catch clause) and when the error handler override throws. *)
Lemma initialize_can_reject :
  (exists message,
      snd undefined_run = Normal (VPromise false (TypeError message))) /\
  snd unreported_run = Normal (VPromise false render_failure).
Proof.
  split.
  - eexists. vm_compute. reflexivity.
  - vm_compute. reflexivity.
Qed.

(** Against C8: when [logError] throws, the promise of the default error
    handler is rejected with what it threw. *)
Lemma initError_can_reject :
  calls (fst (initError broken_logging [plain_error] (start VNull))) =
    [(LogError, [plain_error])] /\
  snd (initError broken_logging [plain_error] (start VNull)) =
    Normal (VPromise false logging_failure).
Proof.
  split.
  - vm_compute. reflexivity.
  - vm_compute. reflexivity.
Qed.

End ConcreteRuns.

(** * Further properties of the sequencer *)

Section Order.

(** A run goes through a prefix of the sites: those that completed, whose
    handlers were announced, then the one that threw, if any. *)
Lemma run_of_prefix ss evs c :
  run_of ss evs c ->
  exists done rest,
    ss = done ++ rest /\
    publications evs = completion_topics done /\
    match c with
    | Normal _ => rest = [] /\ started evs = done
    | Throw _ => exists x rest', rest = x :: rest' /\ started evs = done ++ [x]
    end.
Proof.
  induction 1 as [| x rest args v | x rest args r evs c _ IH].
  - exists [], []. repeat split.
  - exists [], (x :: rest). split; [reflexivity |]. split; [reflexivity |].
    exists x, rest. split; reflexivity.
  - destruct IH as (done & rest' & -> & Hp & Hc).
    exists (x :: done), rest'. split; [reflexivity |]. split.
    + unfold publications in *. simpl. rewrite flat_map_app, Hp.
      destruct x; reflexivity.
    + assert (Es : started (Start x args :: Done x (Normal r) :: announce x ++ evs)
                   = x :: started evs)
        by (unfold started; simpl; rewrite flat_map_app; destruct x; reflexivity).
      rewrite Es. destruct c as [[] | v].
      * destruct Hc as [-> ->]. split; reflexivity.
      * destruct Hc as (y & rest'' & -> & ->). exists y, rest''. split; reflexivity.
Qed.

Lemma script_suffix_announces done x rest :
  script = done ++ x :: rest -> completion_topics (x :: rest) <> [].
Proof.
  unfold script. intros E.
  do 11 (destruct done as [| ? done];
         [injection E as <- <-; discriminate | injection E as _ E]).
  destruct done; discriminate E.
Qed.

Lemma script_NoDup : NoDup (script ++ [ErrorHandler]).
Proof.
  unfold script. simpl.
  repeat (constructor; [simpl; intuition discriminate |]). constructor.
Qed.

Lemma in_publications t payload tr :
  In (t, payload) (publications tr) <-> In (Publish t payload) tr.
Proof.
  unfold publications. rewrite in_flat_map. split.
  - intros (e & He & Hin). destruct e; simpl in Hin; try contradiction.
    destruct Hin as [Hin | []]. injection Hin as -> ->. exact He.
  - intros H. exists (Publish t payload). split; [exact H | left; reflexivity].
Qed.

Lemma lifecycle_script : completion_topics script = lifecycle.
Proof. reflexivity. Qed.

(** A run of the [try] block that throws does not reach APP.READY. *)
Lemma thrown_not_ready evs tail v :
  run_of script evs (Throw v) ->
  (forall e, In e tail -> ~ phase_event e) ->
  ~ published APP_READY (evs ++ tail).
Proof.
  intros R Htail.
  destruct (run_of_throw_last _ _ _ R) as (pre & x & E & Hx).
  assert (Hin : In (Done x (Throw v)) evs)
    by (rewrite E; apply in_or_app; right; left; reflexivity).
  assert (Hp : exists p, phase_of x = Some p).
  { destruct x as [p | p |]; [exists p | exists p |]; try reflexivity.
    exfalso. apply script_no_error_handler, Hx. }
  destruct Hp as [p Hp].
  apply (thrown_stops_topics evs tail x v p Ready R Htail Hin Hp).
  destruct p; simpl; lia.
Qed.

End Order.

Section Outcomes.

Context {St : Type} (K : collaborators St).

(** X1: in every run, the topics published are an initial segment of the
    seven completion topics in their fixed order, followed by
    APP.INIT_ERROR at most once and only when the segment is not the whole
    sequence: no completion topic is skipped, repeated or published after
    an error. *)
Theorem publications_follow_lifecycle (argument : option (options St)) (sigma : St) :
  let tr := trace (fst (initialize K argument (start sigma))) in
  exists announced later report,
    publications tr = announced ++ report /\
    lifecycle = announced ++ later /\
    (report = [] \/
     (later <> [] /\ exists v, report = [(APP_INIT_ERROR, Some v)])).
Proof.
  destruct argument as [o |]; intros tr.
  2: { exists [], lifecycle, []. repeat split. left. reflexivity. }
  pose proof (initialize_trace K o sigma) as R. fold tr in R.
  assert (Hsplit : forall evs c, run_of script evs c ->
            exists done rest, script = done ++ rest /\
              publications evs = completion_topics done /\
              lifecycle = completion_topics done ++ completion_topics rest /\
              (forall v, c = Throw v -> completion_topics rest <> [])).
  { intros evs c Rs. destruct (run_of_prefix _ _ _ Rs) as (done & rest & E & Hp & Hc).
    exists done, rest. split; [exact E |]. split; [exact Hp |]. split.
    - rewrite <- lifecycle_script, E. unfold completion_topics.
      apply flat_map_app.
    - intros v ->. destruct Hc as (x & rest' & -> & _).
      apply (script_suffix_announces done x rest' E). }
  remember (snd (initialize K (Some o) (start sigma))) as r eqn:Er. clear Er.
  destruct R as [evs R | evs v e R _ | evs v m R _ _
                 | evs v m r R _ _ | evs v m e R _ _];
    destruct (Hsplit _ _ R) as (done & rest & _ & Hp & Hl & Hne).
  - exists (completion_topics done), (completion_topics rest), [].
    rewrite app_nil_r. repeat split; trivial. left. reflexivity.
  - exists (completion_topics done), (completion_topics rest), [].
    rewrite app_nil_r. repeat split; trivial. left. reflexivity.
  - exists (completion_topics done), (completion_topics rest), [].
    rewrite app_nil_r. repeat split; trivial. left. reflexivity.
  - exists (completion_topics done), (completion_topics rest),
      [(APP_INIT_ERROR, Some v)].
    split; [| split; [exact Hl |]].
    + unfold publications in *. rewrite flat_map_app, Hp. reflexivity.
    + right. split; [apply (Hne v); reflexivity |]. exists v. reflexivity.
  - exists (completion_topics done), (completion_topics rest), [].
    split; [| split; [exact Hl | left; reflexivity]].
    unfold publications in *. rewrite flat_map_app, Hp. reflexivity.
Qed.

(** X2: in every run, the handlers and wiring blocks are entered in program
    order, none skipped and each at most once; the error handler is entered
    at most once, after them; and the run is what these entries say: the
    code of each site entered was run, with the recorded arguments and in
    the state left by what came before, and nothing else was done. *)
Theorem sites_entered_in_order (argument : option (options St)) (sigma : St) :
  let run := initialize K argument (start sigma) in
  let tr := trace (fst run) in
  ((exists rest, script = started tr ++ rest) \/
   (exists entered rest,
       started tr = entered ++ [ErrorHandler] /\
       script = entered ++ rest)) /\
  NoDup (started tr) /\
  (forall p, destructure K argument = Normal p ->
             replay K p (start sigma) tr (fst run)).
Proof.
  destruct argument as [o |]; intros run tr.
  2: { split; [left; exists script; reflexivity |].
       split; [constructor | intros p E; discriminate E]. }
  apply and_assoc. split; [| intros p Ep; apply (initialize_replay K o sigma p Ep)].
  pose proof (initialize_trace K o sigma) as R.
  change (initialize_run tr (snd (initialize K (Some o) (start sigma)))) in R.
  assert (Hscript : NoDup script)
    by (apply (NoDup_app_remove_r _ _ script_NoDup)).
  assert (Hpre : forall evs c, run_of script evs c ->
            exists rest, script = started evs ++ rest).
  { intros evs c Rs. destruct (run_of_prefix _ _ _ Rs) as (done & rest & E & _ & Hc).
    destruct c as [[] | v].
    - destruct Hc as [-> ->]. exists []. exact E.
    - destruct Hc as (x & rest' & -> & ->). exists rest'.
      rewrite E, <- app_assoc. reflexivity. }
  assert (Hplain : forall evs c, run_of script evs c ->
            (exists rest, script = started evs ++ rest) /\ NoDup (started evs)).
  { intros evs c Rs. destruct (Hpre _ _ Rs) as (rest & E).
    split; [exists rest; exact E |].
    rewrite E in Hscript. apply (NoDup_app_remove_r _ _ Hscript). }
  assert (Herr : forall evs v tail,
            run_of script evs (Throw v) ->
            started tail = [ErrorHandler] ->
            (exists entered rest,
                started (evs ++ tail) = entered ++ [ErrorHandler] /\
                script = entered ++ rest) /\
            NoDup (started (evs ++ tail))).
  { intros evs v tail Rs Ht.
    destruct (run_of_prefix _ _ _ Rs) as (done & rest & E & _ & x & rest' & -> & Es).
    assert (Est : started (evs ++ tail) = started evs ++ [ErrorHandler])
      by (unfold started in *; rewrite flat_map_app, Ht; reflexivity).
    rewrite Est. split.
    - exists (started evs), rest'. split; [reflexivity |].
      rewrite Es, E, <- app_assoc. reflexivity.
    - apply NoDup_app.
      + destruct (Hplain _ _ Rs) as [_ H]. exact H.
      + constructor; [intros [] | constructor].
      + intros a Ha [<- | []].
        apply script_no_error_handler. rewrite E. rewrite Es in Ha.
        apply in_app_or in Ha. apply in_or_app.
        destruct Ha as [Ha | [<- | []]]; [left; exact Ha | right; left; reflexivity]. }
  remember (snd (initialize K (Some o) (start sigma))) as r eqn:Er. clear Er.
  destruct R as [evs R | evs v e R _ | evs v m R _ _
                 | evs v m r R _ _ | evs v m e R _ _].
  - destruct (Hplain _ _ R) as [H1 H2]. split; [left; exact H1 | exact H2].
  - destruct (Hplain _ _ R) as [H1 H2]. split; [left; exact H1 | exact H2].
  - destruct (Hplain _ _ R) as [H1 H2]. split; [left; exact H1 | exact H2].
  - destruct (Herr evs v [Start ErrorHandler [v]; Done ErrorHandler (Normal r);
                          Publish APP_INIT_ERROR (Some v)] R eq_refl) as [H1 H2].
    split; [right; exact H1 | exact H2].
  - destruct (Herr evs v [Start ErrorHandler [v]; Done ErrorHandler (Throw e)]
                R eq_refl) as [H1 H2].
    split; [right; exact H1 | exact H2].
Qed.

(** X3: in a run of [initialize] with an options record, APP.READY is
    published exactly when nothing threw; all seven completion topics were
    then published and the returned promise is fulfilled; APP.READY and
    APP.INIT_ERROR are never both published. *)
Theorem ready_iff_nothing_threw (o : options St) (sigma : St) :
  let run := initialize K (Some o) (start sigma) in
  (published APP_READY (trace (fst run)) <->
   forall x v, ~ In (Done x (Throw v)) (trace (fst run))) /\
  (published APP_READY (trace (fst run)) ->
   publications (trace (fst run)) = lifecycle /\
   snd run = Normal (VPromise true VUndefined)) /\
  ~ (published APP_READY (trace (fst run)) /\
     published APP_INIT_ERROR (trace (fst run))).
Proof.
  intros run. pose proof (initialize_trace K o sigma) as R. fold run in R.
  remember (trace (fst run)) as tr eqn:Etr. remember (snd run) as r eqn:Er.
  clear Etr Er.
  assert (Hthrow : forall evs v tail,
            run_of script evs (Throw v) ->
            (forall e, In e tail -> ~ phase_event e) ->
            ~ published APP_READY (evs ++ tail) /\
            ~ (forall x w, ~ In (Done x (Throw w)) (evs ++ tail))).
  { intros evs v tail Rs Htail. split.
    - apply (thrown_not_ready evs tail v Rs Htail).
    - intros Hno. destruct (run_of_throw_last _ _ _ Rs) as (pre & x & E & _).
      apply (Hno x v). rewrite E. apply in_or_app. left.
      apply in_or_app. right. left. reflexivity. }
  assert (Hcase : forall evs v tail,
            run_of script evs (Throw v) ->
            (forall e, In e tail -> ~ phase_event e) ->
            (published APP_READY (evs ++ tail) <->
             forall x w, ~ In (Done x (Throw w)) (evs ++ tail)) /\
            (published APP_READY (evs ++ tail) ->
             publications (evs ++ tail) = lifecycle /\
             r = Normal (VPromise true VUndefined)) /\
            ~ (published APP_READY (evs ++ tail) /\
               published APP_INIT_ERROR (evs ++ tail))).
  { intros evs v tail Rs Htail. destruct (Hthrow evs v tail Rs Htail) as [H1 H2].
    split; [split; intros H; contradiction |].
    split; [intros H; contradiction | intros [H _]; contradiction]. }
  destruct R as [evs R | evs v e R _ | evs v m R _ _
                 | evs v m r R _ _ | evs v m e R _ _].
  - assert (Hp : publications evs = lifecycle)
      by (rewrite <- lifecycle_script; apply (run_of_normal_publications _ _ R)).
    assert (Hr : published APP_READY evs).
    { exists None. apply in_publications. rewrite Hp. unfold lifecycle, phases.
      simpl. do 6 right. left. reflexivity. }
    split; [split; [| intros _; exact Hr] |].
    + intros _ x v H. pose proof (run_of_thrown _ _ _ _ _ R H) as E. discriminate E.
    + split; [intros _; split; [exact Hp | reflexivity] |].
      intros [_ [payload H]].
      apply (run_of_phase_event _ _ _ R H). reflexivity.
  - rewrite <- (app_nil_r evs). apply (Hcase evs v [] R). intros e0 [].
  - rewrite <- (app_nil_r evs). apply (Hcase evs v [] R). intros e0 [].
  - apply (Hcase evs v _ R).
    intros e0 [<- | [<- | [<- | []]]] H0; apply H0; reflexivity.
  - apply (Hcase evs v _ R).
    intros e0 [<- | [<- | []]] H0; apply H0; reflexivity.
Qed.

(** X4: in every run, APP.INIT_ERROR is published only as the last event,
    once, after a handler or wiring block threw a value whose
    [isRedirecting] property could be read and is not truthy and after the
    error handler of the table, called with that value in the state the
    throw left, resolved; its payload is that value, and the run ends with
    this publication. *)
Theorem init_error_only_after_failure
    (argument : option (options St)) (sigma : St) (payload : option value) :
  let run := initialize K argument (start sigma) in
  let tr := trace (fst run) in
  In (Publish APP_INIT_ERROR payload) tr ->
  exists pre x v m r,
    x <> ErrorHandler /\
    payload = Some v /\
    get v "isRedirecting" = Normal m /\ truthy m = false /\
    tr = pre ++ [Done x (Throw v); Start ErrorHandler [v];
                 Done ErrorHandler (Normal r); Publish APP_INIT_ERROR (Some v)] /\
    ~ published APP_INIT_ERROR pre /\
    exists p args s s' s'',
      destructure K argument = Normal p /\
      visited K p (start sigma) (fst run) x args s (Throw v) s' /\
      await (h_initError (applyOverrideHandlers K (overrideHandlers p)) [v])
            (logged (Start ErrorHandler [v]) (logged (Done x (Throw v)) s'))
        = (s'', Normal r) /\
      fst run =
        logged (Publish APP_INIT_ERROR (Some v))
               (logged (Done ErrorHandler (Normal r)) s'').
Proof.
  destruct argument as [o |]; intros run tr Hin; [| destruct Hin].
  assert (Hold : exists pre x v m r,
             x <> ErrorHandler /\
             payload = Some v /\
             get v "isRedirecting" = Normal m /\ truthy m = false /\
             tr = pre ++ [Done x (Throw v); Start ErrorHandler [v];
                          Done ErrorHandler (Normal r);
                          Publish APP_INIT_ERROR (Some v)] /\
             ~ published APP_INIT_ERROR pre).
  { pose proof (initialize_trace K o sigma) as R.
    change (initialize_run tr (snd (initialize K (Some o) (start sigma)))) in R.
    remember (snd (initialize K (Some o) (start sigma))) as res eqn:Er. clear Er.
    remember tr as tr' eqn:Etr in R, Hin |- *. clear Etr.
    assert (Hnot : forall evs c, run_of script evs c ->
                     ~ In (Publish APP_INIT_ERROR payload) evs).
    { intros evs c Rs H. apply (run_of_phase_event _ _ _ Rs H). reflexivity. }
    destruct R as [evs R | evs v e R _ | evs v m R _ _
                   | evs v m r R Em Et | evs v m e R _ _].
    - exfalso. apply (Hnot _ _ R Hin).
    - exfalso. apply (Hnot _ _ R Hin).
    - exfalso. apply (Hnot _ _ R Hin).
    - apply in_app_or in Hin. destruct Hin as [Hin | Hin].
      { exfalso. apply (Hnot _ _ R Hin). }
      destruct Hin as [Hin | [Hin | [Hin | []]]]; try discriminate Hin.
      injection Hin as <-.
      destruct (run_of_throw_last _ _ _ R) as (pre & x & E & Hx).
      exists pre, x, v, m, r.
      split; [intros ->; apply script_no_error_handler, Hx |].
      split; [reflexivity |]. split; [exact Em |]. split; [exact Et |]. split.
      + rewrite E, <- app_assoc. reflexivity.
      + intros [pl H].
        apply (run_of_phase_event _ _ (Publish APP_INIT_ERROR pl) R); [| reflexivity].
        rewrite E. apply in_or_app. left. exact H.
    - apply in_app_or in Hin. destruct Hin as [Hin | Hin].
      { exfalso. apply (Hnot _ _ R Hin). }
      destruct Hin as [Hin | [Hin | []]]; discriminate Hin. }
  destruct Hold as (pre & x & v & m & r & Hx & Epl & Em & Et & E & Hn).
  exists pre, x, v, m, r. repeat (split; [assumption |]).
  assert (Hp : exists p, destructure K (Some o) = Normal p)
    by (eexists; reflexivity).
  destruct Hp as [p Ep].
  destruct (initialize_thrown_visit K o sigma p pre x v _ Ep E)
    as (args & s & s' & Hv & Rr).
  destruct (replay_error_handler K _ _ _ _ _ _ Rr) as (s'' & Hh & Rt).
  exists p, args, s, s', s''. split; [exact Ep |]. split; [exact Hv |].
  split; [exact Hh |].
  apply (replay_one_publication K _ _ _ _ _ Rt).
Qed.

End Outcomes.

Section Calls.

Context {St : Type} (K : collaborators St).

Implicit Types I : state St -> Prop.

Lemma calls_inv_ignores_ext P : ignores_ext (@calls_inv St P).
Proof. intros s sigma H. exact H. Qed.

Lemma calls_inv_ignores_trace P : ignores_trace (@calls_inv St P).
Proof. intros s tr H. exact H. Qed.

Lemma calls_inv_admits (P : call_record -> Prop) f args :
  P (f, args) -> admits (@calls_inv St P) f args.
Proof.
  intros Hp s sigma H. unfold calls_inv in *. simpl.
  apply Forall_app. split; [exact H |]. constructor; [exact Hp | constructor].
Qed.

Lemma initError_preserves_calls I args :
  (forall a, admits I LogError a) -> preserves I (initError K args).
Proof.
  intros Hc. unfold initError, logError.
  apply preserves_async, preserves_bind.
  - apply preserves_call, Hc.
  - intros _. apply preserves_ret.
Qed.

Lemma auth_preserves_calls I args :
  (forall f a, auth_call f = true -> admits I f a) -> preserves I (auth K args).
Proof.
  intros Hc. unfold auth, ensureAuthenticatedUser, fetchAuthenticatedUser,
    hydrateAuthenticatedUser, getAuthenticatedUser, global_location.
  apply preserves_async, preserves_bind.
  - apply preserves_if.
    + apply preserves_bind; [apply preserves_read |]. intros loc.
      apply preserves_bind; [apply preserves_prop |]. intros href.
      apply preserves_await, preserves_call, Hc. reflexivity.
    + apply preserves_await, preserves_call, Hc. reflexivity.
  - intros _. apply preserves_bind.
    + apply preserves_if; [| apply preserves_ret].
      apply preserves_bind; [apply preserves_read |]. intros u. apply preserves_ret.
    + intros cond. apply preserves_if; [| apply preserves_ret].
      apply preserves_bind; [| intros _; apply preserves_ret].
      apply preserves_call, Hc. reflexivity.
Qed.

Lemma analytics_preserves_calls I args :
  (forall f a, analytics_call f = true -> admits I f a) ->
  preserves I (analytics K args).
Proof.
  intros Hc. unfold analytics, identifyAuthenticatedUser,
    identifyAnonymousUser, getAuthenticatedUser.
  apply preserves_async, preserves_bind; [apply preserves_read |].
  intros user. apply preserves_bind.
  - apply preserves_if; [apply preserves_prop | apply preserves_ret].
  - intros cond. apply preserves_if.
    + apply preserves_bind; [apply preserves_prop |]. intros userId.
      apply preserves_bind; [| intros _; apply preserves_ret].
      apply preserves_call, Hc. reflexivity.
    + apply preserves_bind; [| intros _; apply preserves_ret].
      apply preserves_call, Hc. reflexivity.
Qed.

(** An invariant that ignores the trace and is kept by the wiring blocks and
    by the handlers of the table is kept by [initialize]. *)
Lemma initialize_preserves I argument :
  ignores_trace I ->
  (forall p, destructure K argument = Normal p -> kept_by_phases K I p) ->
  preserves I (initialize K argument).
Proof.
  intros Ht Hk. unfold initialize. apply preserves_async.
  destruct (destructure K argument) as [p | e] eqn:Ed.
  2: { intros s H. exact H. }
  destruct (Hk p eq_refl) as [W1 W2 W3 W4 Hh H8].
  intros s H. unfold bind at 1, lift_completion. cbv beta iota zeta.
  revert s H. apply preserves_try_catch.
  - unfold try_block, publish.
    repeat (apply preserves_bind; [| intros _]);
      try (apply preserves_step; [exact Ht |]);
      try (apply preserves_emit; exact Ht);
      trivial; apply preserves_await.
    + apply (Hh PubSub).
    + apply (Hh Config).
    + apply (Hh Logging).
    + apply (Hh Auth).
    + apply (Hh Analytics).
    + apply (Hh I18n).
    + apply (Hh Ready).
  - intros v. unfold catch_block, publish.
    apply preserves_bind; [apply preserves_prop |]. intros m.
    apply preserves_if; [| apply preserves_ret].
    apply preserves_bind.
    + apply preserves_step; [exact Ht |]. apply preserves_await, H8.
    + intros _. apply preserves_emit, Ht.
Qed.

Lemma spread_preserves_unless I dflt (o : option (member St)) :
  ignores_ext I ->
  (o = None -> forall args, preserves I (dflt args)) ->
  forall args, preserves I (spread dflt o args).
Proof.
  intros He Hd args. destruct o as [m |]; simpl.
  - apply preserves_invoke, He.
  - apply Hd. reflexivity.
Qed.

(** The handlers of the table keep an invariant that the caller's handlers
    keep, if the imports of each default handler left in the table do. *)
Lemma table_preserves I ov :
  ignores_ext I ->
  (o_auth ov = None -> forall f a, auth_call f = true -> admits I f a) ->
  (o_analytics ov = None -> forall f a, analytics_call f = true -> admits I f a) ->
  (o_initError ov = None -> forall a, admits I LogError a) ->
  all_handlers (fun c => forall args, preserves I (c args))
               (applyOverrideHandlers K ov).
Proof.
  intros He Ha Hn Hl.
  split; simpl; apply spread_preserves_unless; trivial; intros E args.
  - apply noOp_preserves.
  - apply noOp_preserves.
  - apply noOp_preserves.
  - apply auth_preserves_calls, Ha, E.
  - apply analytics_preserves_calls, Hn, E.
  - apply noOp_preserves.
  - apply noOp_preserves.
  - apply initError_preserves_calls, Hl, E.
Qed.

Lemma wire_logging_call p s :
  fst (wire_logging K p s) =
    {| ext := fst (extern K ConfigureLogging
                     [loggingService p; VObj [("config", config_of K (ext s))]] (ext s));
       calls := calls s ++ [(ConfigureLogging,
                  [loggingService p; VObj [("config", config_of K (ext s))]])];
       trace := trace s |}.
Proof.
  unfold wire_logging, bind, getConfig, read, configureLogging, call.
  destruct (extern K ConfigureLogging _ (ext s)) as [sigma c]. reflexivity.
Qed.

Lemma wire_analytics_call p s :
  let options := VObj [("config", config_of K (ext s));
                       ("loggingService", logging_service_of K (ext s));
                       ("httpClient", http_client_of K (ext s))] in
  fst (wire_analytics K p s) =
    {| ext := fst (extern K ConfigureAnalytics [analyticsService p; options] (ext s));
       calls := calls s ++ [(ConfigureAnalytics, [analyticsService p; options])];
       trace := trace s |}.
Proof.
  unfold wire_analytics, bind, getConfig, getLoggingService,
    getAuthenticatedHttpClient, read, configureAnalytics, call.
  destruct (extern K ConfigureAnalytics _ (ext s)) as [sigma c]. reflexivity.
Qed.

Lemma wire_i18n_call p s :
  let options := VObj [("messages", messages p);
                       ("config", config_of K (ext s));
                       ("loggingService", logging_service_of K (ext s))] in
  fst (wire_i18n K p s) =
    {| ext := fst (extern K ConfigureI18n [options] (ext s));
       calls := calls s ++ [(ConfigureI18n, [options])];
       trace := trace s |}.
Proof.
  unfold wire_i18n, bind, getConfig, getLoggingService, read, configureI18n, call.
  destruct (extern K ConfigureI18n _ (ext s)) as [sigma c]. reflexivity.
Qed.

(** The auth wiring either throws on reading the configuration, before any
    call, or calls [configureAuth] with the options read from it. *)
Lemma wire_auth_options s :
  (exists e, wire_auth K s = (s, Throw e)) \/
  (exists options,
      auth_options_of K (ext s) options /\
      fst (wire_auth K s) =
        {| ext := fst (extern K ConfigureAuth [options] (ext s));
           calls := calls s ++ [(ConfigureAuth, [options])];
           trace := trace s |}).
Proof.
  unfold wire_auth, bind, getLoggingService, getConfig, read, prop,
    lift_completion, configureAuth, call.
  destruct (get (config_of K (ext s)) "BASE_URL") as [b | e] eqn:Eb.
  - right.
    assert (Hg : forall k, exists x, get (config_of K (ext s)) k = Normal x).
    { intros k. destruct (config_of K (ext s)); try discriminate Eb;
        eexists; reflexivity. }
    destruct (Hg "LMS_BASE_URL") as [x1 E1].
    destruct (Hg "LOGIN_URL") as [url E2].
    destruct (Hg "REFRESH_ACCESS_TOKEN_ENDPOINT") as [x2 E3].
    destruct (Hg "ACCESS_TOKEN_COOKIE_NAME") as [x3 E4].
    destruct (Hg "CSRF_TOKEN_API_PATH") as [x4 E5].
    unfold auth_options_of. rewrite Eb, E1, E2, E3, E4, E5. cbv beta iota.
    exists (VObj [("loggingService", logging_service_of K (ext s));
                  ("appBaseUrl", b); ("lmsBaseUrl", x1);
                  ("loginUrl", url); ("logoutUrl", url);
                  ("refreshAccessTokenEndpoint", x2);
                  ("accessTokenCookieName", x3); ("csrfTokenApiPath", x4)]).
    split; [repeat split |].
    destruct (extern K ConfigureAuth _ (ext s)) as [sigma c]. reflexivity.
  - left. exists e. reflexivity.
Qed.

Lemma wirings_preserve_calls (P : call_record -> Prop) p :
  (forall c, configure_call (fst c) = true -> wired_with K p c -> P c) ->
  preserves (calls_inv P) (wire_logging K p) /\
  preserves (calls_inv P) (wire_auth K) /\
  preserves (calls_inv P) (wire_analytics K p) /\
  preserves (calls_inv P) (wire_i18n K p).
Proof.
  intros Hp.
  assert (Happ : forall (s : state St) c, calls_inv P s -> P c ->
                   Forall P (calls s ++ [c])).
  { intros s c H Hc. apply Forall_app. split; [exact H |].
    constructor; [exact Hc | constructor]. }
  split; [| split; [| split]]; intros s H.
  - rewrite wire_logging_call. apply (Happ s _ H). apply Hp; [reflexivity |].
    exists (ext s). reflexivity.
  - destruct (wire_auth_options s) as [[e E] | (options & Ho & E)].
    + rewrite E. exact H.
    + rewrite E. apply (Happ s _ H). apply Hp; [reflexivity |].
      exists (ext s), options. split; [reflexivity | exact Ho].
  - rewrite wire_analytics_call. apply (Happ s _ H). apply Hp; [reflexivity |].
    exists (ext s). reflexivity.
  - rewrite wire_i18n_call. apply (Happ s _ H). apply Hp; [reflexivity |].
    exists (ext s). reflexivity.
Qed.

(** Every call of a run satisfies [P] if the [configure...] calls of the
    wiring do and the calls of the default handlers left in the table do. *)
Lemma initialize_calls (P : call_record -> Prop) o sigma :
  let ov := match opt_handlers o with Some ov => ov | None => no_overrides end in
  (forall p c, destructure K (Some o) = Normal p ->
               configure_call (fst c) = true -> wired_with K p c -> P c) ->
  (o_auth ov = None -> forall c, auth_call (fst c) = true -> P c) ->
  (o_analytics ov = None -> forall c, analytics_call (fst c) = true -> P c) ->
  (o_initError ov = None -> forall a, P (LogError, a)) ->
  Forall P (calls (fst (initialize K (Some o) (start sigma)))).
Proof.
  intros ov Hw Ha Hn Hl.
  apply (initialize_preserves (calls_inv P) (Some o)).
  - apply calls_inv_ignores_trace.
  - intros p Ep.
    destruct (wirings_preserve_calls P p (fun c => Hw p c Ep)) as (W1 & W2 & W3 & W4).
    assert (Eov : overrideHandlers p = ov) by (injection Ep as <-; reflexivity).
    assert (Htable : all_handlers (fun c => forall args, preserves (calls_inv P) (c args))
                                  (applyOverrideHandlers K ov)).
    { apply table_preserves.
      - apply calls_inv_ignores_ext.
      - intros E f a Hf. apply calls_inv_admits. apply (Ha E (f, a) Hf).
      - intros E f a Hf. apply calls_inv_admits. apply (Hn E (f, a) Hf).
      - intros E a. apply calls_inv_admits. apply (Hl E a). }
    destruct Htable as [T1 T2 T3 T4 T5 T6 T7 T8].
    split; trivial; rewrite Eov;
      [intros q; destruct q;
         [apply T1 | apply T2 | apply T3 | apply T4 | apply T5 | apply T6 | apply T7]
      | intros v; apply T8].
  - constructor.
Qed.

(** X5: an override replaces the default handler entirely: in a run whose
    [handlers] option has an [auth] property, [initialize] makes no call to
    [ensureAuthenticatedUser], [fetchAuthenticatedUser] or
    [hydrateAuthenticatedUser]; with an [analytics] property, none to the
    two identification functions; with an [initError] property, none to
    [logError]. *)
Theorem override_replaces_default_calls
    (o : options St) (ov : overrides St) (sigma : St) :
  opt_handlers o = Some ov ->
  let made := calls (fst (initialize K (Some o) (start sigma))) in
  (o_auth ov <> None -> forall c, In c made -> auth_call (fst c) = false) /\
  (o_analytics ov <> None -> forall c, In c made -> analytics_call (fst c) = false) /\
  (o_initError ov <> None -> forall c, In c made -> fst c <> LogError).
Proof.
  intros Eo made. unfold made. split; [| split]; intros Hov c Hin.
  - assert (H : Forall (fun c => auth_call (fst c) = false)
                       (calls (fst (initialize K (Some o) (start sigma))))).
    { apply initialize_calls; rewrite ?Eo.
      - intros p c' _ Hc _. destruct c' as [[] a]; try discriminate Hc; reflexivity.
      - intros E. contradiction.
      - intros _ c' Hc. destruct c' as [[] a]; try discriminate Hc; reflexivity.
      - intros _ a. reflexivity. }
    rewrite Forall_forall in H. apply (H c Hin).
  - assert (H : Forall (fun c => analytics_call (fst c) = false)
                       (calls (fst (initialize K (Some o) (start sigma))))).
    { apply initialize_calls; rewrite ?Eo.
      - intros p c' _ Hc _. destruct c' as [[] a]; try discriminate Hc; reflexivity.
      - intros _ c' Hc. destruct c' as [[] a]; try discriminate Hc; reflexivity.
      - intros E. contradiction.
      - intros _ a. reflexivity. }
    rewrite Forall_forall in H. apply (H c Hin).
  - assert (H : Forall (fun c => fst c <> LogError)
                       (calls (fst (initialize K (Some o) (start sigma))))).
    { apply initialize_calls; rewrite ?Eo.
      - intros p c' _ Hc _. destruct c' as [[] a]; try discriminate Hc; discriminate.
      - intros _ c' Hc. destruct c' as [[] a]; try discriminate Hc; discriminate.
      - intros _ c' Hc. destruct c' as [[] a]; try discriminate Hc; discriminate.
      - intros E. contradiction. }
    rewrite Forall_forall in H. apply (H c Hin).
Qed.

(** The [configure...] calls of an accounted run are those of the wiring
    blocks visited. *)
Lemma replay_configure_calls p (s0 s s_end : state St) tr :
  replay K p s tr s_end ->
  forall pre,
    replay K p s0 pre s -> trace s_end = trace s0 ++ pre ++ tr ->
    Forall (wired_by K p s0 s_end) (calls s) ->
    Forall (wired_by K p s0 s_end) (calls s_end).
Proof.
  induction 1 as [s | s x args m s1 c tr s' Hc Hm Hr IH | s t payload tr s' Hr IH];
    intros pre Rp T H.
  - exact H.
  - apply (IH (pre ++ [Start x args; Done x c])).
    + apply (replay_app K p _ _ _ _ _ Rp).
      apply (replay_site K p s x args m s1 c [] _ Hc Hm). constructor.
    + rewrite T, <- app_assoc. reflexivity.
    + change (Forall (wired_by K p s0 s') (calls s1)).
      assert (Hv : visited K p s0 s' x args (logged (Start x args) s) c s1).
      { exists pre, tr, s, m. repeat split; trivial. }
      assert (Hnew : forall q c0,
                x = Wiring q -> calls s1 = calls s ++ [c0] ->
                wired_in K p q (ext s) c0 ->
                Forall (wired_by K p s0 s') (calls s1)).
      { intros q c0 -> Ec Hw. rewrite Ec. apply Forall_app. split; [exact H |].
        constructor; [| constructor]. intros _.
        exists q, args, (logged (Start (Wiring q) args) s), c, s1.
        split; [exact Hv |]. split; [exact Ec | exact Hw]. }
      destruct x as [q | q |]; simpl in Hc.
      * destruct q; try discriminate Hc; injection Hc as <-.
        -- pose proof (wire_logging_call p (logged (Start (Wiring Logging) args) s)) as E.
           rewrite Hm in E. simpl in E.
           eapply (Hnew Logging _ eq_refl); [rewrite E; reflexivity | reflexivity].
        -- destruct (wire_auth_options (logged (Start (Wiring Auth) args) s))
             as [[e E] | (options & Ho & E)]; rewrite Hm in E.
           ++ injection E as -> _. exact H.
           ++ simpl in E.
              apply (Hnew Auth (ConfigureAuth, [options]) eq_refl);
                [rewrite E; reflexivity |].
              exists options. split; [reflexivity | exact Ho].
        -- pose proof (wire_analytics_call p (logged (Start (Wiring Analytics) args) s)) as E.
           rewrite Hm in E. simpl in E.
           eapply (Hnew Analytics _ eq_refl); [rewrite E; reflexivity | reflexivity].
        -- pose proof (wire_i18n_call p (logged (Start (Wiring I18n) args) s)) as E.
           rewrite Hm in E. simpl in E.
           eapply (Hnew I18n _ eq_refl); [rewrite E; reflexivity | reflexivity].
      * injection Hc as <-.
        destruct (table_preserves (calls_inv (wired_by K p s0 s')) (overrideHandlers p))
          as [T1 T2 T3 T4 T5 T6 T7 T8].
        { apply calls_inv_ignores_ext. }
        { intros _ f a Hf. apply calls_inv_admits. intros Hcfg.
          destruct f; discriminate. }
        { intros _ f a Hf. apply calls_inv_admits. intros Hcfg.
          destruct f; discriminate. }
        { intros _ a. apply calls_inv_admits. intros Hcfg. discriminate Hcfg. }
        assert (Hpres : preserves (calls_inv (wired_by K p s0 s'))
                  (await (handler_of (applyOverrideHandlers K (overrideHandlers p))
                                     q args))).
        { apply preserves_await. destruct q; simpl;
            [apply T1 | apply T2 | apply T3 | apply T4 | apply T5 | apply T6 | apply T7]. }
        pose proof (Hpres (logged (Start (Handler q) args) s) H) as Hs.
        rewrite Hm in Hs. exact Hs.
      * injection Hc as <-.
        destruct (table_preserves (calls_inv (wired_by K p s0 s')) (overrideHandlers p))
          as [T1 T2 T3 T4 T5 T6 T7 T8].
        { apply calls_inv_ignores_ext. }
        { intros _ f a Hf. apply calls_inv_admits. intros Hcfg.
          destruct f; discriminate. }
        { intros _ f a Hf. apply calls_inv_admits. intros Hcfg.
          destruct f; discriminate. }
        { intros _ a. apply calls_inv_admits. intros Hcfg. discriminate Hcfg. }
        pose proof (preserves_await _ _ (T8 args)
                      (logged (Start ErrorHandler args) s) H) as Hs.
        cbn [h_initError applyOverrideHandlers] in Hs.
        rewrite Hm in Hs. exact Hs.
  - apply (IH (pre ++ [Publish t payload])).
    + apply (replay_app K p _ _ _ _ _ Rp). apply replay_publish. constructor.
    + rewrite T, <- app_assoc. reflexivity.
    + exact H.
Qed.

(** X6: the options of [initialize] reach the collaborators unchanged: in
    every run, each [configure...] call is made by the wiring block of its
    phase, and is passed what the block builds in the state the run has
    reached at that moment: the given service, or the default one when the
    option is undefined, with the configuration (and logging service, and
    HTTP client) as they are then, for [configureLogging] and
    [configureAnalytics]; the [messages] option as given for
    [configureI18n]; and the settings of the configuration, property by
    property, for [configureAuth]. *)
Theorem options_reach_the_collaborators (o : options St) (sigma : St) :
  let p :=
    {| loggingService :=
         default_to (NewRelicLoggingService K) (opt_loggingService o);
       analyticsService :=
         default_to (SegmentAnalyticsService K) (opt_analyticsService o);
       requireUser := default_to (VBool false) (opt_requireAuthenticatedUser o);
       hydrateUser := default_to (VBool false) (opt_hydrateAuthenticatedUser o);
       messages := opt_messages o;
       overrideHandlers :=
         match opt_handlers o with Some ov => ov | None => no_overrides end |} in
  let run := initialize K (Some o) (start sigma) in
  Forall (fun c =>
            configure_call (fst c) = true ->
            exists q args s cmp s',
              visited K p (start sigma) (fst run) (Wiring q) args s cmp s' /\
              calls s' = calls s ++ [c] /\
              wired_in K p q (ext s) c)
         (calls (fst run)).
Proof.
  intros p run.
  apply (replay_configure_calls p (start sigma) (start sigma) (fst run)
           (trace (fst run)) (initialize_replay K o sigma p eq_refl) []).
  - constructor.
  - reflexivity.
  - constructor.
Qed.

End Calls.

Section Events.

Context {St : Type} (K : collaborators St).

(** Whatever is published for a phase was preceded by its handler
    resolving. *)
Lemma initialize_published_resolved o sigma q :
  published (topic q) (trace (fst (initialize K (Some o) (start sigma)))) ->
  exists r, In (Done (Handler q) (Normal r))
               (trace (fst (initialize K (Some o) (start sigma)))).
Proof.
  pose proof (initialize_trace K o sigma) as R.
  destruct (initialize_run_split _ _ R) as (evs & c & tail & E & Rs & Htail).
  rewrite E. intros [payload H]. apply in_app_or in H. destruct H as [H | H].
  - destruct (proj1 (run_of_published_iff _ _ _ q Rs)) as [r Hr].
    { exists payload. exact H. }
    exists r. apply in_or_app. left. exact Hr.
  - exfalso. apply (Htail _ H). simpl. apply topic_not_error.
Qed.

Lemma handler_of_override ov q m :
  override_of ov q = Some m ->
  handler_of (applyOverrideHandlers K ov) q = invoke m.
Proof. destruct q; simpl; intros ->; reflexivity. Qed.

(** X7: in every run, every entry of a site is a call of the code at that
    site with the recorded arguments, in the state the run has reached;
    whichever handlers are in the table, the auth handler is called with
    [requireAuthenticatedUser] and [hydrateAuthenticatedUser], each replaced
    by [false] when undefined, the handlers of the other phases are called
    without argument, and the error handler is called with one argument,
    the value that was thrown. *)
Theorem handlers_called_with (o : options St) (sigma : St) :
  let run := initialize K (Some o) (start sigma) in
  Forall (fun e =>
            match e with
            | Start x args =>
                (exists p s c s',
                    destructure K (Some o) = Normal p /\
                    visited K p (start sigma) (fst run) x args s c s') /\
                match x with
                | Handler Auth =>
                    args = [default_to (VBool false) (opt_requireAuthenticatedUser o);
                            default_to (VBool false) (opt_hydrateAuthenticatedUser o)]
                | Handler _ => args = []
                | Wiring _ => True
                | ErrorHandler =>
                    exists y v,
                      args = [v] /\ y <> ErrorHandler /\
                      In (Done y (Throw v)) (trace (fst run))
                end
            | _ => True
            end)
         (trace (fst run)).
Proof.
  intros run. apply Forall_forall. intros e Hin.
  destruct e as [x args | |]; trivial.
  assert (Hp : exists p, destructure K (Some o) = Normal p)
    by (eexists; reflexivity).
  destruct Hp as [p Ep].
  split.
  - destruct (initialize_start_visit K o sigma p x args Ep Hin) as (s & c & s' & Hv).
    exists p, s, c, s'. split; assumption.
  - destruct x as [q | q |]; [exact I | |].
    + rewrite (initialize_handler_args K o sigma p q args Ep Hin).
      injection Ep as <-. destruct q; reflexivity.
    + pose proof (initialize_trace K o sigma) as R. fold run in R.
      remember (trace (fst run)) as tr eqn:Etr. clear Etr.
      remember (snd run) as res eqn:Er. clear Er.
      assert (Hnot : forall evs c, run_of script evs c ->
                       ~ In (Start ErrorHandler args) evs).
      { intros evs c Rs H. apply (run_of_phase_event _ _ _ Rs H). reflexivity. }
      assert (Hthrown : forall evs v tail,
                run_of script evs (Throw v) ->
                exists y, y <> ErrorHandler /\ In (Done y (Throw v)) (evs ++ tail)).
      { intros evs v tail Rs.
        destruct (run_of_throw_last _ _ _ Rs) as (pre & y & -> & Hy).
        exists y. split; [intros ->; apply script_no_error_handler, Hy |].
        apply in_or_app. left. apply in_or_app. right. left. reflexivity. }
      destruct R as [evs R | evs v e R _ | evs v m R _ _
                     | evs v m r R _ _ | evs v m e R _ _];
        try (exfalso; apply (Hnot _ _ R Hin)).
      * apply in_app_or in Hin. destruct Hin as [Hin | Hin];
          [exfalso; apply (Hnot _ _ R Hin) |].
        destruct Hin as [Hin | [Hin | [Hin | []]]]; try discriminate Hin.
        injection Hin as <-.
        destruct (Hthrown evs v [Start ErrorHandler [v]; Done ErrorHandler (Normal r);
                                 Publish APP_INIT_ERROR (Some v)] R) as (y & Hy & Hd).
        exists y, v. split; [reflexivity |]. split; [exact Hy | exact Hd].
      * apply in_app_or in Hin. destruct Hin as [Hin | Hin];
          [exfalso; apply (Hnot _ _ R Hin) |].
        destruct Hin as [Hin | [Hin | []]]; try discriminate Hin.
        injection Hin as <-.
        destruct (Hthrown evs v [Start ErrorHandler [v]; Done ErrorHandler (Throw e)] R)
          as (y & Hy & Hd).
        exists y, v. split; [reflexivity |]. split; [exact Hy | exact Hd].
Qed.

(** X8: when the [handlers] option has, for a phase, a property that is not
    a function, the call of that handler throws a TypeError whenever the
    phase is reached, and the completion topic of the phase is never
    published. *)
Theorem non_function_override_fails
    (o : options St) (ov : overrides St) (sigma : St) (q : phase) (v : value) :
  opt_handlers o = Some ov ->
  override_of ov q = Some (NotFn v) ->
  let tr := trace (fst (initialize K (Some o) (start sigma))) in
  (forall c, In (Done (Handler q) c) tr -> exists message, c = Throw (TypeError message)) /\
  ~ published (topic q) tr.
Proof.
  intros Eo Eq tr.
  assert (H : forall c, In (Done (Handler q) c) tr ->
                        exists message, c = Throw (TypeError message)).
  { assert (HF : Forall (fun e => forall c, e = Done (Handler q) c ->
                                  exists message, c = Throw (TypeError message)) tr).
    { apply initialize_events. intros p Ep h. injection Ep as <-.
      split; [| split; [| split]].
      - intros q'. split; [intros c E; discriminate E |].
        intros s c E. injection E as -> <-.
        unfold h. simpl overrideHandlers. rewrite Eo.
        rewrite (handler_of_override ov q _ Eq).
        eexists. reflexivity.
      - intros q' m _. split; [intros c E | intros s c E]; discriminate E.
      - intros q' c E. discriminate E.
      - intros w. split; [intros c E; discriminate E |].
        split; [intros s c E | intros c E]; discriminate E. }
    rewrite Forall_forall in HF. intros c Hin. apply (HF _ Hin c). reflexivity. }
  split; [exact H |].
  intros Hp. destruct (initialize_published_resolved o sigma q Hp) as [r Hr].
  destruct (H _ Hr) as [message E]. discriminate E.
Qed.

End Events.

(** A number in place of the i18n handler: the phase fails with a TypeError
    and APP.I18N_INITIALIZED is not published. *)
Lemma non_function_override_fails_witness :
  (forall c,
      In (Done (Handler I18n) c)
         (trace (fst (initialize Scenario.session
                        (Some (Scenario.with_handlers Scenario.i18n_is_not_a_function))
                        (start VNull)))) ->
      exists message, c = Throw (TypeError message)) /\
  ~ published (topic I18n)
      (trace (fst (initialize Scenario.session
                     (Some (Scenario.with_handlers Scenario.i18n_is_not_a_function))
                     (start VNull)))).
Proof.
  apply (non_function_override_fails Scenario.session
           (Scenario.with_handlers Scenario.i18n_is_not_a_function)
           Scenario.i18n_is_not_a_function VNull I18n (VNum 5));
    reflexivity.
Defined.

Section Stages.

Context {St : Type} (K : collaborators St).

Implicit Types P Q R : state St -> Prop.

Lemma hoare_bind {A B} P Q Q' R (m : M St A) (k : A -> M St B) :
  hoare P m Q R -> (forall a, hoare Q (k a) Q' R) -> hoare P (bind m k) Q' R.
Proof.
  intros Hm Hk s H. unfold bind. specialize (Hm s H).
  destruct (m s) as [s' [a | v]].
  - apply (Hk a s' Hm).
  - exact Hm.
Qed.

Lemma hoare_preserves {A} P (m : M St A) : preserves P m -> hoare P m P P.
Proof.
  intros Hm s H. specialize (Hm s H). destruct (m s) as [s' [a | v]]; exact Hm.
Qed.

Lemma hoare_weaken {A} P Q R R' (m : M St A) :
  hoare P m Q R -> (forall s, R s -> R' s) -> hoare P m Q R'.
Proof.
  intros Hm HR s H. specialize (Hm s H).
  destruct (m s) as [s' [a | v]]; [exact Hm | apply HR, Hm].
Qed.

Lemma hoare_step P Q R x args (m : M St value) :
  ignores_trace P -> ignores_trace Q -> ignores_trace R ->
  hoare P m Q R -> hoare P (step x args m) Q R.
Proof.
  intros HP HQ HR Hm s H. unfold step, emit. cbv beta iota zeta.
  match goal with |- context [m ?s0] => specialize (Hm s0 (HP s _ H));
                                        destruct (m s0) as [s1 [r | v]] end;
    simpl; [apply HQ | apply HR]; exact Hm.
Qed.

Lemma configured_app (s : state St) (sigma : St) tr f args :
  configured {| ext := sigma; calls := calls s ++ [(f, args)]; trace := tr |} =
  configured s ++ (if configure_call f then [f] else []).
Proof.
  unfold configured. simpl. rewrite filter_app, map_app. simpl.
  destruct (configure_call f); reflexivity.
Qed.

Lemma stage_ignores_trace k : ignores_trace (@stage St k).
Proof. intros s tr H. exact H. Qed.

Lemma stage_handler_invariant k : handler_invariant (@stage St k).
Proof.
  split.
  - intros s sigma H. exact H.
  - intros f args Hf s sigma H. unfold stage in *. rewrite configured_app.
    destruct f; try discriminate Hf; simpl; rewrite app_nil_r; exact H.
Qed.

Lemma some_stage_ignores_trace : ignores_trace (@some_stage St).
Proof. intros s tr [k H]. exists k. exact H. Qed.

Lemma some_stage_handler_invariant : handler_invariant (@some_stage St).
Proof.
  split.
  - intros s sigma [k H]. exists k. exact H.
  - intros f args Hf s sigma [k H]. exists k.
    apply (hi_calls _ (stage_handler_invariant k) f args Hf s sigma H).
Qed.

(** A wiring block that makes its call takes the run to the next stage. *)
Lemma stage_next k f (s s' : state St) args :
  nth_error wiring_order k = Some f ->
  stage k s ->
  s' = {| ext := ext s'; calls := calls s ++ [(f, args)]; trace := trace s' |} ->
  stage (S k) s'.
Proof.
  intros Hf H E. rewrite E. unfold stage in *. rewrite configured_app, H.
  unfold wiring_order in *.
  destruct k as [| [| [| [| k]]]]; simpl in Hf;
    try (destruct k; discriminate Hf);
    injection Hf as <-; reflexivity.
Qed.

Lemma wire_logging_stage p :
  hoare (stage 0) (wire_logging K p) (stage 1) (stage 1).
Proof.
  intros s H. pose proof (wire_logging_call K p s) as E.
  destruct (wire_logging K p s) as [s' c]. simpl in E.
  assert (H' : stage 1 s')
    by (eapply (stage_next 0 ConfigureLogging s s'); [reflexivity | exact H | subst s'; reflexivity]).
  destruct c; exact H'.
Qed.

Lemma wire_auth_stage :
  hoare (stage 1) (wire_auth K) (stage 2) (fun s => stage 1 s \/ stage 2 s).
Proof.
  intros s H. destruct (wire_auth_options K s) as [[e E] | (options & _ & E)].
  - rewrite E. left. exact H.
  - destruct (wire_auth K s) as [s' c]. simpl in E.
    assert (H' : stage 2 s')
      by (eapply (stage_next 1 ConfigureAuth s s'); [reflexivity | exact H | subst s'; reflexivity]).
    destruct c; [exact H' | right; exact H'].
Qed.

Lemma wire_analytics_stage p :
  hoare (stage 2) (wire_analytics K p) (stage 3) (stage 3).
Proof.
  intros s H. pose proof (wire_analytics_call K p s) as E.
  destruct (wire_analytics K p s) as [s' c]. simpl in E.
  assert (H' : stage 3 s')
    by (eapply (stage_next 2 ConfigureAnalytics s s'); [reflexivity | exact H | subst s'; reflexivity]).
  destruct c; exact H'.
Qed.

Lemma wire_i18n_stage p :
  hoare (stage 3) (wire_i18n K p) (stage 4) (stage 4).
Proof.
  intros s H. pose proof (wire_i18n_call K p s) as E.
  destruct (wire_i18n K p s) as [s' c]. simpl in E.
  assert (H' : stage 4 s')
    by (eapply (stage_next 3 ConfigureI18n s s'); [reflexivity | exact H | subst s'; reflexivity]).
  destruct c; exact H'.
Qed.

(** The [try] block configures the four services in order; where it
    throws, those configured are the first ones. *)
Lemma try_block_stages ov p :
  hoare (stage 0) (try_block K (applyOverrideHandlers K ov) p) (stage 4) some_stage.
Proof.
  assert (Hh : forall k,
    all_handlers (fun c => forall args, preserves (stage k) (c args))
                 (applyOverrideHandlers K ov))
    by (intros k; apply applyOverrideHandlers_preserves, stage_handler_invariant).
  assert (Hstep : forall k x args (c : callable St),
            (forall a, preserves (stage k) (c a)) ->
            hoare (stage k) (step x args (await (c args))) (stage k) some_stage).
  { intros k x args c Hc. apply hoare_weaken with (R := stage k).
    - apply hoare_step; try apply stage_ignores_trace.
      apply hoare_preserves, preserves_await, Hc.
    - intros s H. exists k. exact H. }
  assert (Hpub : forall k t,
            hoare (stage k) (@publish St t None) (stage k) some_stage).
  { intros k t. apply hoare_weaken with (R := stage k).
    - apply hoare_preserves, preserves_emit, stage_ignores_trace.
    - intros s H. exists k. exact H. }
  assert (Hwire : forall k Rk x (m : M St value),
            (forall s, Rk s -> some_stage s) -> ignores_trace Rk ->
            hoare (stage k) m (stage (S k)) Rk ->
            hoare (stage k) (step x [] m) (stage (S k)) some_stage).
  { intros k Rk x m HR Ht Hm. apply hoare_weaken with (R := Rk); [| exact HR].
    apply hoare_step; trivial; apply stage_ignores_trace. }
  unfold try_block.
  apply hoare_bind with (Q := stage 0); [apply Hstep, (Hh 0) | intros _].
  apply hoare_bind with (Q := stage 0); [apply Hpub | intros _].
  apply hoare_bind with (Q := stage 0); [apply Hstep, (Hh 0) | intros _].
  apply hoare_bind with (Q := stage 0); [apply Hpub | intros _].
  apply hoare_bind with (Q := stage 1); [| intros _].
  { apply (Hwire 0 (stage 1)); [intros s H; exists 1; exact H
                                | apply stage_ignores_trace | apply wire_logging_stage]. }
  apply hoare_bind with (Q := stage 1); [apply Hstep, (Hh 1) | intros _].
  apply hoare_bind with (Q := stage 1); [apply Hpub | intros _].
  apply hoare_bind with (Q := stage 2); [| intros _].
  { apply (Hwire 1 (fun s => stage 1 s \/ stage 2 s)).
    - intros s [H | H]; [exists 1 | exists 2]; exact H.
    - intros s tr H. exact H.
    - apply wire_auth_stage. }
  apply hoare_bind with (Q := stage 2); [apply Hstep, (Hh 2) | intros _].
  apply hoare_bind with (Q := stage 2); [apply Hpub | intros _].
  apply hoare_bind with (Q := stage 3); [| intros _].
  { apply (Hwire 2 (stage 3)); [intros s H; exists 3; exact H
                                | apply stage_ignores_trace | apply wire_analytics_stage]. }
  apply hoare_bind with (Q := stage 3); [apply Hstep, (Hh 3) | intros _].
  apply hoare_bind with (Q := stage 3); [apply Hpub | intros _].
  apply hoare_bind with (Q := stage 4); [| intros _].
  { apply (Hwire 3 (stage 4)); [intros s H; exists 4; exact H
                                | apply stage_ignores_trace | apply wire_i18n_stage]. }
  apply hoare_bind with (Q := stage 4); [apply Hstep, (Hh 4) | intros _].
  apply hoare_bind with (Q := stage 4); [apply Hpub | intros _].
  apply hoare_bind with (Q := stage 4); [apply Hstep, (Hh 4) | intros _].
  apply Hpub.
Qed.

(** X9: in every run, the [configure...] calls made are the first ones of
    the sequence [configureLogging], [configureAuth], [configureAnalytics],
    [configureI18n], in this order and each once: no service is configured
    twice, out of order, or after the configuration of an earlier one was
    skipped. *)
Theorem services_configured_in_order (argument : option (options St)) (sigma : St) :
  exists k,
    configured (fst (initialize K argument (start sigma))) = firstn k wiring_order.
Proof.
  unfold initialize, async, bind at 1, lift_completion.
  destruct (destructure K argument) as [p | e].
  2: { exists 0. reflexivity. }
  cbv beta iota zeta.
  pose proof (try_block_stages (overrideHandlers p) p (start sigma) eq_refl) as Ht.
  unfold try_catch.
  destruct (try_block K (applyOverrideHandlers K (overrideHandlers p)) p (start sigma))
    as [s1 [[] | v]]; simpl.
  - exists 4. exact Ht.
  - assert (Hc : preserves some_stage
                   (catch_block (applyOverrideHandlers K (overrideHandlers p)) v)).
    { destruct (applyOverrideHandlers_preserves K _ (overrideHandlers p)
                  some_stage_handler_invariant) as [_ _ _ _ _ _ _ H8].
      unfold catch_block, publish.
      apply preserves_bind; [apply preserves_prop |]. intros m.
      apply preserves_if; [| apply preserves_ret].
      apply preserves_bind.
      - apply preserves_step; [apply some_stage_ignores_trace |].
        apply preserves_await, H8.
      - intros _. apply preserves_emit, some_stage_ignores_trace. }
    specialize (Hc s1 Ht).
    destruct (catch_block _ v s1) as [s2 c]. simpl in *. exact Hc.
Qed.

End Stages.

Section Blocked.

Context {St : Type} (K : collaborators St).

(** The sites before one that was left have completed. *)
Lemma run_of_done_before ss evs c x cx y :
  run_of ss evs c -> ascending ss ->
  In (Done x cx) evs -> In y ss -> rank y < rank x ->
  exists r, In (Done y (Normal r)) evs.
Proof.
  intros H. induction H as [| x0 rest a w | x0 rest a r evs c H IH];
    intros Hs Hx Hy Hlt.
  - contradiction.
  - apply StronglySorted_inv in Hs. destruct Hs as [_ Hr].
    rewrite Forall_forall in Hr.
    destruct Hx as [Hx | [Hx | []]]; [discriminate Hx |].
    injection Hx as -> _.
    destruct Hy as [-> | Hy]; [lia | apply Hr in Hy; lia].
  - apply StronglySorted_inv in Hs. destruct Hs as [Hs Hr].
    rewrite Forall_forall in Hr.
    destruct Hx as [Hx | [Hx | Hx]]; [discriminate Hx | |].
    + injection Hx as -> _.
      destruct Hy as [-> | Hy]; [lia | apply Hr in Hy; lia].
    + apply in_app_or in Hx. destruct Hx as [Hx | Hx].
      { apply in_announce in Hx. destruct Hx as (p & _ & Hx). discriminate Hx. }
      destruct Hy as [-> | Hy].
      * exists r. right. left. reflexivity.
      * destruct (IH Hs Hx Hy Hlt) as [r' Hr'].
        exists r'. right. right. apply in_or_app. right. exact Hr'.
Qed.

(** A site that never completes keeps the topics of its phase and of the
    later phases from being published. *)
Lemma blocked_site_stops_topics o sigma y p :
  In y script -> phase_of y = Some p ->
  (forall r, ~ In (Done y (Normal r))
                  (trace (fst (initialize K (Some o) (start sigma))))) ->
  forall q, phase_index p <= phase_index q ->
            ~ published (topic q) (trace (fst (initialize K (Some o) (start sigma)))).
Proof.
  intros Hy Hp Hblocked q Hle Hpub.
  destruct (initialize_published_resolved K o sigma q Hpub) as [r Hr].
  pose proof (initialize_trace K o sigma) as R.
  destruct (initialize_run_split _ _ R) as (evs & c & tail & E & Rs & Htail).
  rewrite E in Hr, Hblocked.
  apply in_app_or in Hr. destruct Hr as [Hr | Hr].
  2: { apply (Htail _ Hr). simpl. discriminate. }
  assert (Hrank : rank y < rank (Handler q) \/ y = Handler q).
  { destruct y as [py | py |]; simpl in Hp; try discriminate Hp;
      injection Hp as ->; simpl.
    - left. lia.
    - destruct (Nat.eq_dec (phase_index p) (phase_index q)) as [Eq | Ne].
      + right. f_equal. destruct p, q; simpl in Eq; try discriminate Eq; reflexivity.
      + left. lia. }
  destruct Hrank as [Hlt | ->].
  - destruct (run_of_done_before _ _ _ _ _ y Rs script_ascending Hr Hy Hlt) as [r' Hr'].
    apply (Hblocked r'). apply in_or_app. left. exact Hr'.
  - apply (Hblocked r). apply in_or_app. left. exact Hr.
Qed.

Lemma wire_auth_without_config s :
  config_of K (ext s) = VUndefined \/ config_of K (ext s) = VNull ->
  exists message, wire_auth K s = (s, Throw (TypeError message)).
Proof.
  intros Hc. unfold wire_auth, bind, getLoggingService, getConfig, read, prop,
    lift_completion.
  destruct Hc as [-> | ->]; eexists; reflexivity.
Qed.

Lemma auth_without_location requireUser hydrateUser s :
  location_of K (ext s) = VUndefined \/ location_of K (ext s) = VNull ->
  truthy requireUser = true ->
  exists message,
    auth K [requireUser; hydrateUser] s =
      (s, Normal (VPromise false (TypeError message))).
Proof.
  intros Hl Hr. unfold auth, async, bind, global_location, read, prop,
    lift_completion. cbn [arg nth]. rewrite Hr.
  destruct Hl as [-> | ->]; eexists; reflexivity.
Qed.

(** X10: when the configuration is missing ([getConfig()] is [undefined] or
    [null]), the wiring of the auth phase throws a TypeError whenever it is
    reached, [configureAuth] is never called, and neither
    APP.AUTH_INITIALIZED nor a later completion topic is published. *)
Theorem missing_configuration_stops_at_auth (o : options St) (sigma : St) :
  (forall sigma', config_of K sigma' = VUndefined \/ config_of K sigma' = VNull) ->
  let run := initialize K (Some o) (start sigma) in
  (forall c, In c (calls (fst run)) -> fst c <> ConfigureAuth) /\
  (forall c, In (Done (Wiring Auth) c) (trace (fst run)) ->
             exists message, c = Throw (TypeError message)) /\
  (forall q, phase_index Auth <= phase_index q ->
             ~ published (topic q) (trace (fst run))).
Proof.
  intros Hcfg run.
  assert (Hcalls : Forall (fun c => fst c <> ConfigureAuth) (calls (fst run))).
  { apply initialize_calls.
    - intros p c _ Hc Hw. destruct c as [[] a]; try discriminate Hc; try discriminate.
      simpl in Hw. destruct Hw as (sg & options & _ & Hl & Hb & _).
      exfalso. destruct (Hcfg sg) as [E | E]; rewrite E in Hb;
        destruct options; discriminate.
    - intros _ c Hc. destruct c as [[] a]; try discriminate Hc; discriminate.
    - intros _ c Hc. destruct c as [[] a]; try discriminate Hc; discriminate.
    - intros _ a. discriminate. }
  assert (Hwire : forall c, In (Done (Wiring Auth) c) (trace (fst run)) ->
                            exists message, c = Throw (TypeError message)).
  { assert (HF : Forall (fun e => forall c, e = Done (Wiring Auth) c ->
                                  exists message, c = Throw (TypeError message))
                        (trace (fst run))).
    { apply initialize_events. intros p _ h.
      split; [| split; [| split]].
      - intros q. split; [intros c E | intros s c E]; discriminate E.
      - intros q m Hm. split; [intros c E; discriminate E |].
        intros s c E. injection E as -> <-. injection Hm as <-.
        destruct (wire_auth_without_config s (Hcfg (ext s))) as [message ->].
        exists message. reflexivity.
      - intros q c E. discriminate E.
      - intros w. split; [intros c E; discriminate E |].
        split; [intros s c E | intros c E]; discriminate E. }
    rewrite Forall_forall in HF. intros c Hin. apply (HF _ Hin c). reflexivity. }
  split; [| split].
  - rewrite Forall_forall in Hcalls. exact Hcalls.
  - exact Hwire.
  - apply (blocked_site_stops_topics o sigma (Wiring Auth) Auth).
    + simpl. tauto.
    + reflexivity.
    + intros r Hr. destruct (Hwire _ Hr) as [message E]. discriminate E.
Qed.

(** X11: when [global.location] is [undefined] or [null], a user is
    required and the auth handler is the default one, the handler throws a
    TypeError whenever the auth phase is reached, none of
    [ensureAuthenticatedUser], [fetchAuthenticatedUser] and
    [hydrateAuthenticatedUser] is called, and neither APP.AUTH_INITIALIZED
    nor a later completion topic is published. *)
Theorem required_user_without_location (o : options St) (sigma : St) :
  (forall sigma', location_of K sigma' = VUndefined \/ location_of K sigma' = VNull) ->
  truthy (default_to (VBool false) (opt_requireAuthenticatedUser o)) = true ->
  o_auth (match opt_handlers o with Some ov => ov | None => no_overrides end) = None ->
  let run := initialize K (Some o) (start sigma) in
  (forall c, In c (calls (fst run)) -> auth_call (fst c) = false) /\
  (forall c, In (Done (Handler Auth) c) (trace (fst run)) ->
             exists message, c = Throw (TypeError message)) /\
  (forall q, phase_index Auth <= phase_index q ->
             ~ published (topic q) (trace (fst run))).
Proof.
  intros Hloc Hreq Hdefault run.
  set (ov := match opt_handlers o with Some ov => ov | None => no_overrides end) in *.
  assert (Hauth : forall p s,
            destructure K (Some o) = Normal p ->
            exists message,
              handler_of (applyOverrideHandlers K (overrideHandlers p)) Auth
                         (handler_args p Auth) s =
              (s, Normal (VPromise false (TypeError message)))).
  { intros p s Ep. injection Ep as <-. simpl. fold ov. rewrite Hdefault. simpl.
    apply auth_without_location; [apply Hloc | exact Hreq]. }
  assert (Hcalls : Forall (fun c => auth_call (fst c) = false) (calls (fst run))).
  { apply (initialize_preserves K (calls_inv (fun c => auth_call (fst c) = false))
             (Some o)).
    - apply calls_inv_ignores_trace.
    - intros p Ep.
      destruct (wirings_preserve_calls K (fun c => auth_call (fst c) = false) p)
        as (W1 & W2 & W3 & W4).
      { intros c Hc _. destruct c as [[] a]; try discriminate Hc; reflexivity. }
      assert (Hsp : forall dflt (m : option (member St)),
                (forall args, preserves (calls_inv (fun c => auth_call (fst c) = false))
                                        (dflt args)) ->
                forall args, preserves (calls_inv (fun c => auth_call (fst c) = false))
                                       (spread dflt m args)).
      { intros dflt m Hd. apply spread_preserves_unless.
        - apply calls_inv_ignores_ext.
        - intros _. exact Hd. }
      assert (Hana : forall args,
                preserves (calls_inv (fun c => auth_call (fst c) = false))
                          (analytics K args)).
      { intros args. apply analytics_preserves_calls. intros f a Hf.
        apply calls_inv_admits. destruct f; try discriminate Hf; reflexivity. }
      split; trivial.
      + intros q. destruct q; try (apply Hsp; intros args; apply noOp_preserves).
        * intros s H. destruct (Hauth p s Ep) as [message E]. rewrite E. exact H.
        * apply Hsp, Hana.
      + intros v. apply Hsp. intros args. apply initError_preserves_calls.
        intros a. apply calls_inv_admits. reflexivity.
    - constructor. }
  assert (Hdone : forall c, In (Done (Handler Auth) c) (trace (fst run)) ->
                            exists message, c = Throw (TypeError message)).
  { assert (HF : Forall (fun e => forall c, e = Done (Handler Auth) c ->
                                  exists message, c = Throw (TypeError message))
                        (trace (fst run))).
    { apply initialize_events. intros p Ep h.
      split; [| split; [| split]].
      - intros q. split; [intros c E; discriminate E |].
        intros s c E. injection E as -> <-.
        unfold h, await, bind. destruct (Hauth p s Ep) as [message ->].
        exists message. reflexivity.
      - intros q m _. split; [intros c E | intros s c E]; discriminate E.
      - intros q c E. discriminate E.
      - intros w. split; [intros c E; discriminate E |].
        split; [intros s c E | intros c E]; discriminate E. }
    rewrite Forall_forall in HF. intros c Hin. apply (HF _ Hin c). reflexivity. }
  split; [| split].
  - rewrite Forall_forall in Hcalls. exact Hcalls.
  - exact Hdone.
  - apply (blocked_site_stops_topics o sigma (Handler Auth) Auth).
    + simpl. tauto.
    + reflexivity.
    + intros r Hr. destruct (Hdone _ Hr) as [message E]. discriminate E.
Qed.

End Blocked.

Section Rejection.

Context {St : Type} (K : collaborators St).

(** X12: the promise returned by [initialize] for an options record is
    rejected only from the [catch] clause, after a handler or wiring block
    threw: either it threw [null] or [undefined], reading [isRedirecting]
    threw the error the promise carries, the error handler was not invoked
    and the run ended in the state the throw left; or the error handler of
    the table, called with the thrown value in that state, threw that error,
    APP.INIT_ERROR was not published and the run ended there. *)
Theorem rejection_comes_from_catch (o : options St) (sigma : St) (e : value) :
  let run := initialize K (Some o) (start sigma) in
  snd run = Normal (VPromise false e) ->
  exists p x v args s s',
    destructure K (Some o) = Normal p /\
    x <> ErrorHandler /\
    In (Done x (Throw v)) (trace (fst run)) /\
    visited K p (start sigma) (fst run) x args s (Throw v) s' /\
    (((v = VUndefined \/ v = VNull) /\
      get v "isRedirecting" = Throw e /\
      (forall a, ~ In (Start ErrorHandler a) (trace (fst run))) /\
      fst run = logged (Done x (Throw v)) s') \/
     (In (Start ErrorHandler [v]) (trace (fst run)) /\
      In (Done ErrorHandler (Throw e)) (trace (fst run)) /\
      ~ published APP_INIT_ERROR (trace (fst run)) /\
      exists s'',
        await (h_initError (applyOverrideHandlers K (overrideHandlers p)) [v])
              (logged (Start ErrorHandler [v]) (logged (Done x (Throw v)) s'))
          = (s'', Throw e) /\
        fst run = logged (Done ErrorHandler (Throw e)) s'')).
Proof.
  intros run Hrej.
  assert (Hshape :
    exists pre x v,
      In x script /\ run_of script (pre ++ [Done x (Throw v)]) (Throw v) /\
      ((get v "isRedirecting" = Throw e /\
        trace (fst run) = pre ++ [Done x (Throw v)]) \/
       trace (fst run) =
         pre ++ [Done x (Throw v); Start ErrorHandler [v];
                 Done ErrorHandler (Throw e)])).
  { pose proof (initialize_trace K o sigma) as R. fold run in R.
    remember (trace (fst run)) as tr eqn:Etr. clear Etr.
    rewrite Hrej in R. remember (Normal (VPromise false e)) as r eqn:Er.
    destruct R as [evs R | evs v e' R Em | evs v m R _ _
                   | evs v m r R _ _ | evs v m e' R _ _]; try discriminate Er;
      injection Er as ->;
      destruct (run_of_throw_last _ _ _ R) as (pre & x & -> & Hx);
      exists pre, x, v; (split; [exact Hx |]); (split; [exact R |]).
    - left. split; [exact Em | reflexivity].
    - right. rewrite <- app_assoc. reflexivity. }
  destruct Hshape as (pre & x & v & Hx & Rs & Hcase).
  assert (Hp : exists p, destructure K (Some o) = Normal p)
    by (eexists; reflexivity).
  destruct Hp as [p Ep].
  assert (Hxe : x <> ErrorHandler)
    by (intros ->; apply script_no_error_handler, Hx).
  destruct Hcase as [[Em E] | E].
  - destruct (initialize_thrown_visit K o sigma p pre x v [] Ep E)
      as (args & s & s' & Hv & Rr).
    exists p, x, v, args, s, s'. split; [exact Ep |]. split; [exact Hxe |].
    split; [fold run; rewrite E; apply in_or_app; right; left; reflexivity |].
    split; [exact Hv |]. left.
    split; [destruct v; try discriminate Em; [left | right]; reflexivity |].
    split; [exact Em |]. split.
    + intros a H. fold run in H. rewrite E in H.
      apply (run_of_phase_event _ _ _ Rs H). reflexivity.
    + apply (replay_nil K _ _ _ Rr).
  - destruct (initialize_thrown_visit K o sigma p pre x v _ Ep E)
      as (args & s & s' & Hv & Rr).
    destruct (replay_error_handler K _ _ _ _ _ _ Rr) as (s'' & Hh & Rt).
    exists p, x, v, args, s, s'. split; [exact Ep |]. split; [exact Hxe |].
    split; [fold run; rewrite E; apply in_or_app; right; left; reflexivity |].
    split; [exact Hv |]. right. fold run. rewrite E.
    split; [apply in_or_app; right; right; left; reflexivity |].
    split; [apply in_or_app; right; right; right; left; reflexivity |].
    split.
    + intros [payload H]. apply in_app_or in H. destruct H as [H | H].
      * apply (run_of_phase_event _ _ (Publish APP_INIT_ERROR payload) Rs);
          [| reflexivity].
        apply in_or_app. left. exact H.
      * destruct H as [H | [H | [H | []]]]; discriminate H.
    + exists s''. split; [exact Hh |]. apply (replay_nil K _ _ _ Rt).
Qed.

End Rejection.

(** ** Concrete runs for the further properties *)

Section MoreConcreteRuns.

Import Scenario.

Abbreviation failed_run :=
  (initialize session (Some (with_handlers analytics_fails)) (start VNull)).
Abbreviation undefined_run :=
  (initialize session (Some (with_handlers pubSub_rejects_with_undefined)) (start VNull)).

(** The failing analytics handler: APP.INIT_ERROR closes the trace. *)
Lemma init_error_only_after_failure_witness :
  In (Publish APP_INIT_ERROR (Some plain_error)) (trace (fst failed_run)) /\
  exists pre x v m r,
    x <> ErrorHandler /\
    Some plain_error = Some v /\
    get v "isRedirecting" = Normal m /\ truthy m = false /\
    trace (fst failed_run) =
      pre ++ [Done x (Throw v); Start ErrorHandler [v];
              Done ErrorHandler (Normal r); Publish APP_INIT_ERROR (Some v)] /\
    ~ published APP_INIT_ERROR pre /\
    exists p args s s' s'',
      destructure session (Some (with_handlers analytics_fails)) = Normal p /\
      visited session p (start VNull) (fst failed_run) x args s (Throw v) s' /\
      await (h_initError (applyOverrideHandlers session (overrideHandlers p)) [v])
            (logged (Start ErrorHandler [v]) (logged (Done x (Throw v)) s'))
        = (s'', Normal r) /\
      fst failed_run =
        logged (Publish APP_INIT_ERROR (Some v))
               (logged (Done ErrorHandler (Normal r)) s'').
Proof.
  assert (H : In (Publish APP_INIT_ERROR (Some plain_error)) (trace (fst failed_run))).
  { vm_compute. do 22 right. left. reflexivity. }
  split; [exact H |].
  apply (init_error_only_after_failure session
           (Some (with_handlers analytics_fails)) VNull (Some plain_error) H).
Defined.

(** With an analytics override, no identification call is made. *)
Lemma override_replaces_default_calls_witness :
  (o_auth analytics_fails <> None ->
   forall c, In c (calls (fst failed_run)) -> auth_call (fst c) = false) /\
  (o_analytics analytics_fails <> None ->
   forall c, In c (calls (fst failed_run)) -> analytics_call (fst c) = false) /\
  (o_initError analytics_fails <> None ->
   forall c, In c (calls (fst failed_run)) -> fst c <> LogError).
Proof.
  apply (override_replaces_default_calls session (with_handlers analytics_fails)
           analytics_fails VNull eq_refl).
Defined.

(** Without configuration, the run stops at the wiring of the auth phase. *)
Lemma missing_configuration_stops_at_auth_witness :
  (forall c, In c (calls (fst (initialize unconfigured (Some empty_options) (start VNull)))) ->
             fst c <> ConfigureAuth) /\
  (forall c, In (Done (Wiring Auth) c)
                (trace (fst (initialize unconfigured (Some empty_options) (start VNull)))) ->
             exists message, c = Throw (TypeError message)) /\
  (forall q, phase_index Auth <= phase_index q ->
             ~ published (topic q)
                 (trace (fst (initialize unconfigured (Some empty_options) (start VNull))))).
Proof.
  apply (missing_configuration_stops_at_auth unconfigured empty_options VNull).
  intros sigma'. left. reflexivity.
Defined.

(** Outside a browser, requiring a user fails in the auth handler. *)
Lemma required_user_without_location_witness :
  (forall c, In c (calls (fst (initialize no_browser (Some require_and_hydrate) (start VNull)))) ->
             auth_call (fst c) = false) /\
  (forall c, In (Done (Handler Auth) c)
                (trace (fst (initialize no_browser (Some require_and_hydrate) (start VNull)))) ->
             exists message, c = Throw (TypeError message)) /\
  (forall q, phase_index Auth <= phase_index q ->
             ~ published (topic q)
                 (trace (fst (initialize no_browser (Some require_and_hydrate) (start VNull))))).
Proof.
  apply (required_user_without_location no_browser require_and_hydrate VNull).
  - intros sigma'. left. reflexivity.
  - reflexivity.
  - reflexivity.
Defined.

(** A handler rejected with [undefined]: the promise of [initialize] is
    rejected with the TypeError of the catch clause. *)
Lemma rejection_comes_from_catch_witness :
  exists e,
    snd undefined_run = Normal (VPromise false e) /\
    exists p x v args s s',
      destructure session (Some (with_handlers pubSub_rejects_with_undefined))
        = Normal p /\
      x <> ErrorHandler /\
      In (Done x (Throw v)) (trace (fst undefined_run)) /\
      visited session p (start VNull) (fst undefined_run) x args s (Throw v) s' /\
      (((v = VUndefined \/ v = VNull) /\
        get v "isRedirecting" = Throw e /\
        (forall a, ~ In (Start ErrorHandler a) (trace (fst undefined_run))) /\
        fst undefined_run = logged (Done x (Throw v)) s') \/
       (In (Start ErrorHandler [v]) (trace (fst undefined_run)) /\
        In (Done ErrorHandler (Throw e)) (trace (fst undefined_run)) /\
        ~ published APP_INIT_ERROR (trace (fst undefined_run)) /\
        exists s'',
          await (h_initError (applyOverrideHandlers session (overrideHandlers p)) [v])
                (logged (Start ErrorHandler [v]) (logged (Done x (Throw v)) s'))
            = (s'', Throw e) /\
          fst undefined_run = logged (Done ErrorHandler (Throw e)) s'')).
Proof.
  eexists. split; [vm_compute; reflexivity |].
  apply (rejection_comes_from_catch session
           (with_handlers pubSub_rejects_with_undefined) VNull).
  vm_compute. reflexivity.
Defined.

End MoreConcreteRuns.
